(** * TensorGCC: generalized cross-correlation

    A shallow embedding of [src/tensorgcc/gcc.py] (the packaged
    implementation), of the scaling stage of the older [src/gcc/gcc.py]
    and of [next_power_of_two] ([src/gcc/ops.py], the same function).

    Modelling conventions.
    - Python integers are [Z]; array lengths are [nat], converted with
      [Z.of_nat] wherever the source does integer arithmetic on them.
    - Tensors are eager values of rank 1 or 2; every operation of the
      array backend that the source calls is written out on them
      (broadcasting, slicing with Python's bounds, concatenation).
    - Waveform samples are exact reals ([R]); spectra are pairs of reals.
      The transforms of the array backend ([rfft], [irfft]) are given their
      mathematical definition (the discrete Fourier transform); rounding of
      sample arithmetic is not represented, so [check_numerics] never
      fires.  Nor are the two zeros of the doubles: see [Cx.atan2].
    - The transforms pad every tensor but an empty one.  They refuse a
      batch of no rows whose rows are shorter than the transform
      ([signal_rfft], [signal_irfft]); on rows of no samples they return
      memory that was never written, for which the transform of the
      zero-padded row stands.
    - [math.frexp] is applied to an integer, which Python first converts to
      a double: that conversion (round to nearest, ties to even, 53 bits)
      is written out on [Z].  Its overflow beyond [2^1024] is out of reach
      of a tensor dimension and is left out.
    - Exceptions are values of [exn]; a call returns [result]. *)

From Stdlib Require Import ZArith QArith List Bool Lia.
From Stdlib Require String.
Import String.StringSyntax.
Delimit Scope string_scope with string.
From Stdlib Require Import Reals Lra.
Import ListNotations.

Close Scope Q_scope.
Open Scope Z_scope.

(** ** Errors *)

Inductive exn : Type :=
| ValueError_weighting      (* gcc: "weighting ... not supported." *)
| ValueError_scale          (* gcc: "scale ... not supported." *)
| ValueError_static_dim     (* gcc: inner most dimension not statically defined *)
| RankAssertion             (* tf.debugging.assert_rank_in *)
| AssertionError            (* the assert statement of _shift *)
| IncompatibleShapes        (* broadcasting of an elementwise operation *)
| ValueError_pad            (* np.pad with a negative width *)
| InvalidArgument_fft.      (* a transform of an empty tensor too short for it *)

Inductive result (A : Type) : Type :=
| Ok (a : A)
| Raise (e : exn).
Arguments Ok {A} a.
Arguments Raise {A} e.

Definition bind {A B} (r : result A) (k : A -> result B) : result B :=
  match r with
  | Ok a => k a
  | Raise e => Raise e
  end.

Definition rmap {A B} (f : A -> B) (r : result A) : result B :=
  bind r (fun a => Ok (f a)).

(** The error classes of the specification. *)
Inductive spec_error : Type := ShapeError | ConfigError | NumericalError.

Definition classify (e : exn) : spec_error :=
  match e with
  | ValueError_weighting | ValueError_scale => ConfigError
  | AssertionError | ValueError_pad => ConfigError
  | ValueError_static_dim | RankAssertion | IncompatibleShapes => ShapeError
  | InvalidArgument_fft => ShapeError
  end.

(** ** [next_power_of_two] ([src/tensorgcc/gcc.py], [src/gcc/ops.py]) *)

Module Float.

(** Number of significand bits of a double. *)
Definition prec : Z := 53.

(** [float(n)] for a Python integer [n]: the value of the nearest double,
    ties to even.  Every double of magnitude [2^53] or more is an
    integer, so the result is again in [Z]. *)
Definition of_int (n : Z) : Z :=
  let a := Z.abs n in
  let s := Z.log2 a + 1 - prec in
  if s <=? 0 then n
  else
    let q := Z.shiftr a s in
    let r := Z.land a (Z.ones s) in
    let half := Z.shiftl 1 (s - 1) in
    let q' := if (half <? r) || ((r =? half) && Z.odd q) then q + 1 else q in
    Z.sgn n * Z.shiftl q' s.

(** [math.frexp] on an integer-valued double [f]: mantissa [m] and
    exponent [e] with [f = m * 2^e] and [1/2 <= |m| < 1]; [(0, 0)] at
    zero. *)
Definition frexp_value (f : Z) : Q * Z :=
  if f =? 0 then (0%Q, 0)
  else
    let e := Z.log2 (Z.abs f) + 1 in
    (Qmake f (Z.to_pos (2 ^ e)), e).

Definition frexp (n : Z) : Q * Z := frexp_value (of_int n).

End Float.

(** Return res for integer n such that 2^res >= n. *)
Definition next_power_of_two (n : Z) : Z :=
  let '(mantissa, res) := Float.frexp n in
  if Qeq_bool mantissa (1 # 2) then res - 1 else res.

(** ** Tensors

    A waveform tensor has rank 1 (a single signal) or rank 2 (a batch of
    signals).  A rank-2 tensor records its trailing dimension, which its
    rows must have ([wf]); this keeps the shape [[0, n]] of an empty batch.
    [Other r] stands for every tensor whose contents the pipeline never
    reaches: one of rank [r] other than 1 and 2, or an [x0] of rank 1 or 2
    whose inner dimension is not statically known.  The code asks only
    [x0] for its static shape; an [x1] of rank 1 or 2 with an inner
    dimension that is not static has no counterpart here (the model stops
    on [Other r] where the code goes on), and no statement below gives a
    result for it. *)

Inductive tensor (A : Type) : Type :=
| Vec (v : list A)
| Mat (cols : nat) (rows : list (list A))
| Other (rank : nat).
Arguments Vec {A} v.
Arguments Mat {A} cols rows.
Arguments Other {A} rank.

Definition rank {A} (t : tensor A) : nat :=
  match t with
  | Vec _ => 1
  | Mat _ _ => 2
  | Other r => r
  end.

Definition wf {A} (t : tensor A) : Prop :=
  match t with
  | Vec _ => True
  | Mat c rows => Forall (fun r => length r = c) rows
  | Other _ => True
  end.

(** [x.get_shape()[-1]]. *)
Definition last_dim {A} (t : tensor A) : option nat :=
  match t with
  | Vec v => Some (length v)
  | Mat c _ => Some c
  | Other _ => None
  end.

(** [tf.debugging.assert_rank_in(x, ranks)]. *)
Definition assert_rank_in {A} (x : tensor A) (ranks : list nat) : bool :=
  existsb (Nat.eqb (rank x)) ranks.

(** An operation along the last axis that sends rows of any length to rows
    of length [c']. *)
Definition map_last {A B} (c' : nat) (f : list A -> list B) (t : tensor A)
  : tensor B :=
  match t with
  | Vec v => Vec (f v)
  | Mat _ rows => Mat c' (map f rows)
  | Other r => Other r
  end.

(** Elementwise map. *)
Definition tmap {A B} (f : A -> B) (t : tensor A) : tensor B :=
  match t with
  | Vec v => Vec (map f v)
  | Mat c rows => Mat c (map (map f) rows)
  | Other r => Other r
  end.

(** *** Broadcasting of a binary elementwise operation *)

Fixpoint zip_with {A B C} (f : A -> B -> C) (u : list A) (v : list B)
  : list C :=
  match u, v with
  | a :: u', b :: v' => f a b :: zip_with f u' v'
  | _, _ => []
  end.

(** Two dimensions are compatible when they are equal or one of them is 1. *)
Definition broadcast_dim (n0 n1 : nat) : result nat :=
  if Nat.eqb n0 n1 then Ok n0
  else if Nat.eqb n0 1 then Ok n1
  else if Nat.eqb n1 1 then Ok n0
  else Raise IncompatibleShapes.

(** Rows of compatible lengths, combined elementwise. *)
Definition broadcast_row {A B C} (f : A -> B -> C) (u : list A) (v : list B)
  : list C :=
  if Nat.eqb (length u) (length v) then zip_with f u v
  else match u, v with
       | [a], _ => map (f a) v
       | _, [b] => map (fun a => f a b) u
       | _, _ => []
       end.

(** Row lists of compatible lengths, combined row by row. *)
Definition broadcast_rows {A B C} (f : A -> B -> C)
  (rows0 : list (list A)) (rows1 : list (list B)) : list (list C) :=
  if Nat.eqb (length rows0) (length rows1)
  then zip_with (broadcast_row f) rows0 rows1
  else match rows0, rows1 with
       | [r0], _ => map (broadcast_row f r0) rows1
       | _, [r1] => map (fun r => broadcast_row f r r1) rows0
       | _, _ => []
       end.

Definition broadcast2 {A B C} (f : A -> B -> C) (a : tensor A) (b : tensor B)
  : result (tensor C) :=
  match a, b with
  | Vec u, Vec v =>
      bind (broadcast_dim (length u) (length v)) (fun _ =>
      Ok (Vec (broadcast_row f u v)))
  | Vec u, Mat c1 rows1 =>
      bind (broadcast_dim (length u) c1) (fun c =>
      Ok (Mat c (map (broadcast_row f u) rows1)))
  | Mat c0 rows0, Vec v =>
      bind (broadcast_dim c0 (length v)) (fun c =>
      Ok (Mat c (map (fun r => broadcast_row f r v) rows0)))
  | Mat c0 rows0, Mat c1 rows1 =>
      bind (broadcast_dim c0 c1) (fun c =>
      bind (broadcast_dim (length rows0) (length rows1)) (fun _ =>
      Ok (Mat c (broadcast_rows f rows0 rows1))))
  | _, _ => Raise IncompatibleShapes
  end.

(** *** Slicing along the last axis *)

(** A slice bound as Python and the array backend resolve it against a
    dimension of size [len]: negative bounds count from the end, and the
    result is clipped to [0..len]. *)
Definition slice_bound (len i : Z) : Z :=
  if i <? 0 then Z.max (i + len) 0 else Z.min i len.

(** [l[start:stop]]. *)
Definition slice {A} (start stop : Z) (l : list A) : list A :=
  let len := Z.of_nat (length l) in
  let a := slice_bound len start in
  let b := slice_bound len stop in
  firstn (Z.to_nat (b - a)) (skipn (Z.to_nat a) l).

(** The length of [l[start:stop]], from the length of [l]. *)
Definition slice_len (len : nat) (start stop : Z) : nat :=
  let a := slice_bound (Z.of_nat len) start in
  let b := slice_bound (Z.of_nat len) stop in
  Z.to_nat (b - a).

(** [x[..., start:stop]]. *)
Definition slice_last {A} (start stop : Z) (t : tensor A) : tensor A :=
  match t with
  | Vec v => Vec (slice start stop v)
  | Mat c rows => Mat (slice_len c start stop) (map (slice start stop) rows)
  | Other r => Other r
  end.

(** [tf.concat([a, b], axis=-1)]; the leading dimensions must agree. *)
Definition concat_last {A} (a b : tensor A) : result (tensor A) :=
  match a, b with
  | Vec u, Vec v => Ok (Vec (u ++ v))
  | Mat c0 rows0, Mat c1 rows1 =>
      if Nat.eqb (length rows0) (length rows1)
      then Ok (Mat (c0 + c1) (zip_with (@app A) rows0 rows1))
      else Raise IncompatibleShapes
  | _, _ => Raise IncompatibleShapes
  end.

(** ** Real and complex arithmetic of the array backend *)

Definition complex : Type := (R * R)%type.

Module Cx.
Local Open Scope R_scope.

Definition zero : complex := (0, 0).
Definition of_real (a : R) : complex := (a, 0).
Definition re (z : complex) : R := fst z.
Definition im (z : complex) : R := snd z.
Definition add (z w : complex) : complex := (re z + re w, im z + im w).
Definition mul (z w : complex) : complex :=
  (re z * re w - im z * im w, re z * im w + im z * re w).
Definition conj (z : complex) : complex := (re z, - im z).

(** [e^(i t)]. *)
Definition cis (t : R) : complex := (cos t, sin t).

(** The complex exponential. *)
Definition exp (z : complex) : complex :=
  (Rtrigo_def.exp (re z) * cos (im z), Rtrigo_def.exp (re z) * sin (im z)).

(** The reals have one zero where the doubles have two.  At a zero bin
    [tf.math.angle] gives 0 or [pi], by the sign of the zero that is the
    real part; the value 0 taken here is the one of a bin [+0.0 + 0.0j].
    A statement on the phase of a bin is made for non-zero bins, or for a
    zero bin known to be [+0.0 + 0.0j]. *)
Definition atan2 (y x : R) : R :=
  if Rlt_dec 0 x then atan (y / x)
  else if Rlt_dec x 0 then
    if Rle_dec 0 y then atan (y / x) + PI else atan (y / x) - PI
  else if Rlt_dec 0 y then PI / 2
  else if Rlt_dec y 0 then - (PI / 2)
  else 0.

(** [tf.math.angle]. *)
Definition angle (z : complex) : R := atan2 (im z) (re z).

(** The sum of [f 0 .. f (n-1)]. *)
Fixpoint sum (n : nat) (f : nat -> complex) : complex :=
  match n with
  | O => zero
  | S n' => add (sum n' f) (f n')
  end.
End Cx.

Section Backend.
Local Open Scope R_scope.

Fixpoint Rsum (l : list R) : R :=
  match l with
  | [] => 0
  | a :: l' => a + Rsum l'
  end.

(** [tf.reduce_mean(x, axis=-1, keepdims=True)]. *)
Definition mean (row : list R) : R := Rsum row / INR (length row).

Definition reduce_mean (x : tensor R) : tensor R :=
  map_last 1 (fun row => [mean row]) x.

(** A row cropped, or padded with [d], to length [n]: what the transforms
    do to their input when [fft_length] differs from its size. *)
Definition fit {A} (d : A) (n : nat) (l : list A) : list A :=
  firstn n (l ++ repeat d n).

(** The phase [2 pi k j / n]. *)
Definition phase (n k j : nat) : R := 2 * PI * INR k * INR j / INR n.

(** Bin [k] of the discrete Fourier transform of [n] real samples. *)
Definition dft (n : nat) (xp : list R) (k : nat) : complex :=
  Cx.sum n (fun j =>
    Cx.mul (Cx.of_real (nth j xp 0)) (Cx.cis (- phase n k j))).

(** The real transform of length [nfft] on one row: bins [0 .. nfft/2] of the
    discrete Fourier transform of the row fitted to [nfft] samples. *)
Definition rfft_row (nfft : nat) (x : list R) : list complex :=
  map (dft nfft (fit 0 nfft x)) (seq 0 (nfft / 2 + 1)).

Definition rfft (x : tensor R) (nfft : Z) : tensor complex :=
  map_last (Z.to_nat nfft / 2 + 1) (rfft_row (Z.to_nat nfft)) x.

(** Bin [k] of the full spectrum that a one-sided spectrum stands for. *)
Definition hermitian (nfft : nat) (X : list complex) (k : nat) : complex :=
  if (k <=? nfft / 2)%nat then nth k X Cx.zero
  else Cx.conj (nth (nfft - k) X Cx.zero).

(** The inverse real transform of length [nfft] on one row: the real part
    of the inverse transform of the Hermitian extension. *)
Definition irfft_row (nfft : nat) (X : list complex) : list R :=
  let Xp := fit Cx.zero (nfft / 2 + 1) X in
  map (fun j =>
         Cx.re (Cx.sum nfft (fun k =>
           Cx.mul (hermitian nfft Xp k) (Cx.cis (phase nfft k j))))
         / INR nfft)
      (seq 0 nfft).

Definition irfft (X : tensor complex) (nfft : Z) : tensor R :=
  map_last (Z.to_nat nfft) (irfft_row (Z.to_nat nfft)) X.

(** The transforms pad every tensor but an empty one (one with a
    dimension of size 0), which they hand to their kernel as it is.  The
    kernel asks that the inner dimension be 0 or at least what the
    transform reads, [need], and raises InvalidArgumentError otherwise:
    so does a batch of no rows with a shorter inner dimension. *)
Definition fft_input_ok {A} (x : tensor A) (need : nat) : bool :=
  match x with
  | Mat c [] => (c =? 0)%nat || (need <=? c)%nat
  | _ => true
  end.

(** [tf.signal.rfft(x, [nfft])].  On rows of no samples the kernel
    returns without writing its output, whose contents are then whatever
    the memory holds; [rfft] gives the transform of the zero-padded row
    there, one of these contents. *)
Definition signal_rfft (x : tensor R) (nfft : Z) : result (tensor complex) :=
  if fft_input_ok x (Z.to_nat nfft) then Ok (rfft x nfft)
  else Raise InvalidArgument_fft.

(** [tf.signal.irfft(X, fft_length=[nfft])]. *)
Definition signal_irfft (X : tensor complex) (nfft : Z) : result (tensor R) :=
  if fft_input_ok X (Z.to_nat nfft / 2 + 1) then Ok (irfft X nfft)
  else Raise InvalidArgument_fft.

(** [tf.debugging.check_numerics]: exact reals are never NaN or Inf. *)
Definition check_numerics (x : tensor R) : tensor R := x.
End Backend.

(** ** Option values ([weighting], [scale]) *)

Definition pystr : Type := option String.string.

Definition pystr_eqb (a b : pystr) : bool :=
  match a, b with
  | None, None => true
  | Some s, Some t => String.eqb s t
  | _, _ => false
  end.

(** [v in values]. *)
Definition py_in (v : pystr) (values : list pystr) : bool :=
  existsb (pystr_eqb v) values.

Definition PHAT : pystr := Some "PHAT"%string.
Definition biased : pystr := Some "biased"%string.
Definition unbiased : pystr := Some "unbiased"%string.

(** ** Pieces shared by both implementations *)

(** [np.arange(lo, hi)]. *)
Definition arange (lo hi : Z) : list Z :=
  map (fun i => lo + Z.of_nat i) (seq 0 (Z.to_nat (hi - lo))).

(** [den = m - np.abs(np.arange(-L, L + 1)); den[den <= 0] = 1]. *)
Definition overlap_den (m L : Z) : list Z :=
  let den := map (fun l => m - Z.abs l) (arange (- L) (L + 1)) in
  map (fun d => if d <=? 0 then 1 else d) den.

(** [np.pad(den, (0, width), mode="edge")]. *)
Definition pad_edge (den : list Z) (width : Z) : result (list Z) :=
  if width <? 0 then Raise ValueError_pad
  else Ok (den ++ repeat (last den 0) (Z.to_nat width)).

Definition _filter (R01 : tensor complex) (weighting : pystr)
  : tensor complex :=
  if pystr_eqb weighting PHAT
  then tmap (fun z => Cx.exp (0%R, Cx.angle z)) R01
  else R01.

Definition _shift (x : tensor R) (N ncorr : Z) : result (tensor R) :=
  if negb (ncorr <? N) then Raise AssertionError
  else
    let left_x := slice_last 0 ncorr x in
    let right_x := slice_last (N - ncorr) (N - 1) x in
    concat_last right_x left_x.

(** ** [src/tensorgcc/gcc.py] *)

Module TensorGCC.

Definition _scale (x gcc : tensor R) (scale : pystr) : result (tensor R) :=
  match last_dim x with
  | None => Raise ValueError_static_dim
  | Some m =>
      if pystr_eqb scale biased
      then Ok (tmap (fun v => (v / INR m)%R) gcc)
      else if pystr_eqb scale unbiased
      then
        match last_dim gcc with
        | None => Raise ValueError_static_dim
        | Some gcc_len =>
            let L := Z.quot (Z.of_nat gcc_len - 1) 2 in
            let den := overlap_den (Z.of_nat m) L in
            (* workaround for gcc estimators with even number of samples *)
            bind (pad_edge den (Z.of_nat gcc_len - Z.of_nat (length den)))
              (fun den => broadcast2 Rdiv gcc (Vec (map IZR den)))
        end
      else Ok gcc
  end.

Definition _gcc (x0 x1 : tensor R) (nfft ncorr : Z)
  (weighting scale : pystr) : result (tensor R) :=
  (* Spectrums *)
  bind (signal_rfft x0 nfft) (fun X0 =>
  let X0 := tmap Cx.conj X0 in
  bind (signal_rfft x1 nfft) (fun X1 =>
  (* Cross-spectrum *)
  bind (broadcast2 Cx.mul X1 X0) (fun R01 =>
  (* Filter cross-spectrum *)
  let R01 := _filter R01 weighting in
  (* Get back to time *)
  bind (signal_irfft R01 nfft) (fun r01 =>
  let r01 := check_numerics r01 in
  (* Keep only the lags we want, negative lags before positive lags *)
  bind (_shift r01 nfft ncorr) (fun r01 =>
  _scale x0 r01 scale))))).

Definition gcc (x0 x1 : tensor R) (max_delay : option Z)
  (weighting scale : pystr) : result (tensor R) :=
  if negb (py_in weighting [None; PHAT]) then Raise ValueError_weighting
  else if negb (py_in scale [None; biased; unbiased])
  then Raise ValueError_scale
  else if negb (assert_rank_in x0 [1; 2]%nat) then Raise RankAssertion
  else if negb (assert_rank_in x1 [1; 2]%nat) then Raise RankAssertion
  else
    (* Get lengths *)
    match last_dim x0 with
    | None => Raise ValueError_static_dim
    | Some num_samples =>
        let m := 2 * Z.of_nat num_samples - 1 in
        let ncorr :=
          match max_delay with
          | None => m
          | Some max_delay => Z.min m max_delay
          end in
        let nfft := 2 ^ next_power_of_two m in
        (* Remove DC *)
        bind (broadcast2 Rminus x0 (reduce_mean x0)) (fun x0 =>
        bind (broadcast2 Rminus x1 (reduce_mean x1)) (fun x1 =>
        _gcc x0 x1 nfft ncorr weighting scale))
    end.

End TensorGCC.

(** ** [src/gcc/gcc.py]: the scaling stage of the older implementation,
    which works on batches (rank 2) only. *)

Module Legacy.

Definition _scale (x gcc : tensor R) (scale : pystr) : result (tensor R) :=
  match x, gcc with
  | Mat m _, Mat gcc_len _ =>
      if pystr_eqb scale biased
      then Ok (tmap (fun v => (v / INR m)%R) gcc)
      else if pystr_eqb scale unbiased
      then
        let L := Z.quot (Z.of_nat gcc_len - 1) 2 in
        let den := overlap_den (Z.of_nat m) L in
        broadcast2 Rdiv gcc (Vec (map IZR den))
      else Ok gcc
  | _, _ => Raise RankAssertion
  end.

End Legacy.

(** ** Shapes, as the statements below speak of them *)

(** The leading (batch) dimension of a rank-2 tensor. *)
Definition batch {A} (t : tensor A) : option nat :=
  match t with
  | Mat _ rows => Some (length rows)
  | _ => None
  end.

(** [has_shape t b n]: [t] is a well-formed tensor of shape [[n]]
    ([b = None]) or [[k, n]] ([b = Some k]). *)
Definition has_shape {A} (t : tensor A) (b : option nat) (n : nat) : Prop :=
  wf t /\ batch t = b /\ last_dim t = Some n /\
  match t with Other _ => False | _ => True end.

(** Leading dimensions that broadcast against each other. *)
Definition batch_compatible (b0 b1 : option nat) : Prop :=
  match b0, b1 with
  | Some k0, Some k1 => k0 = k1 \/ k0 = 1%nat \/ k1 = 1%nat
  | _, _ => True
  end.

(** A row with its mean subtracted, and the tensor that the two
    [x - tf.reduce_mean(x, axis=-1, keepdims=True)] lines of [gcc] yield. *)
Definition center (row : list R) : list R :=
  map (fun a => (a - mean row)%R) row.

Definition remove_dc (x : tensor R) : tensor R :=
  match x with
  | Vec v => Vec (center v)
  | Mat c rows => Mat c (map center rows)
  | Other r => Other r
  end.

(** ** The unbiased denominators as the specification words them

    Lag [l] is divided by [max(1, num_samples - |l|)]; the array of these
    values for [l = -L .. L], [L = floor((len - 1) / 2)], is extended by
    repeating its edge value up to the output length [len]. *)
Definition lag_den (num_samples l : Z) : Z := Z.max 1 (num_samples - Z.abs l).

Definition spec_den (num_samples : Z) (len : nat) : list Z :=
  let L := (Z.of_nat len - 1) / 2 in
  let base := map (lag_den num_samples) (arange (- L) (L + 1)) in
  base ++ repeat (last base 0) (len - length base).

(** Every row divided, entry by entry, by the denominators. *)
Definition divide_rows (den : list Z) (t : tensor R) : tensor R :=
  map_last (length den) (fun row => zip_with Rdiv row (map IZR den)) t.

(** ** The circular cross-correlation

    What the spectral stages compute, in the time domain: for rows [x]
    (reference) and [y] (delayed replica) of [n] samples, entry [j] is the
    sum over [b] of [x[b] * y[(b + j) mod n]]. *)

(** The sum of [f 0 .. f (n-1)]. *)
Fixpoint sumR (n : nat) (f : nat -> R) : R :=
  match n with
  | O => 0%R
  | S n' => (sumR n' f + f n')%R
  end.

Definition circular_xcorr (n : nat) (x y : list R) (j : nat) : R :=
  sumR n (fun b => (nth b x 0 * nth ((b + j) mod n) y 0)%R).

(** ** Magnitude and phase of a spectrum bin *)

(** The squared magnitude of a complex number. *)
Definition norm2 (z : complex) : R := (Cx.re z * Cx.re z + Cx.im z * Cx.im z)%R.

(** A bin scaled to magnitude 1; a zero bin goes to 1, its angle being
    taken as 0 (see [Cx.atan2]). *)
Definition unit_phasor (z : complex) : complex :=
  if Req_dec_T (norm2 z) 0 then (1%R, 0%R)
  else (Cx.re z / sqrt (norm2 z), Cx.im z / sqrt (norm2 z))%R.

(** ** The linear cross-correlation

    The textbook estimate at an integer lag [l]: the sum over [b] of
    [x[b] * y[b + l]], a sample outside of [y] counting as zero. *)
Definition sample (y : list R) (i : Z) : R :=
  if i <? 0 then 0%R else nth (Z.to_nat i) y 0%R.

Definition linear_xcorr (x y : list R) (lag : Z) : R :=
  sumR (length x) (fun b => (nth b x 0 * sample y (Z.of_nat b + lag))%R).

(** ** The pipeline on one pair of rows

    What [gcc] does to one signal of [x0] and one signal of [x1], written
    on rows; the statements on batches compare the rows of the output
    with it. *)
Definition filter_row (weighting : pystr) (R01 : list complex)
  : list complex :=
  if pystr_eqb weighting PHAT
  then map (fun z => Cx.exp (0%R, Cx.angle z)) R01
  else R01.

Definition shift_row (N ncorr : Z) (r : list R) : list R :=
  slice (N - ncorr) (N - 1) r ++ slice 0 ncorr r.

Definition scale_row (num_samples : nat) (scale : pystr) (r : list R)
  : list R :=
  if pystr_eqb scale biased then map (fun v => (v / INR num_samples)%R) r
  else if pystr_eqb scale unbiased
  then zip_with Rdiv r
         (map IZR (spec_den (Z.of_nat num_samples) (length r)))
  else r.

(** The row after the spectral stages and the reordering, before
    scaling. *)
Definition unscaled_row (nfft ncorr : Z) (weighting : pystr)
  (r0 r1 : list R) : list R :=
  shift_row nfft ncorr
    (irfft_row (Z.to_nat nfft)
       (filter_row weighting
          (broadcast_row Cx.mul (rfft_row (Z.to_nat nfft) (center r1))
             (map Cx.conj (rfft_row (Z.to_nat nfft) (center r0)))))).

Definition gcc_row (nfft ncorr : Z) (weighting scale : pystr)
  (r0 r1 : list R) : list R :=
  scale_row (length r0) scale (unscaled_row nfft ncorr weighting r0 r1).

(** ** [src/gcc/gcc.py]: the older entry point

    [gcc] takes one tensor [waveforms] of shape
    [[batch(optional), channel, waveform]] and works in graph mode, where
    shape errors show when the graph is built.  [W2] and [W3] carry the
    static dimensions next to the data. *)

Module LegacyPipeline.

Inductive waveforms : Type :=
| W2 (samples : nat) (channels : list (list R))
| W3 (channels samples : nat) (batches : list (list (list R)))
| WOther (ndims : nat).

Definition ndims (w : waveforms) : nat :=
  match w with
  | W2 _ _ => 2
  | W3 _ _ _ => 3
  | WOther k => k
  end.

Definition wf_waveforms (w : waveforms) : Prop :=
  match w with
  | W2 n channels => Forall (fun row => length row = n) channels
  | W3 c n batches =>
      Forall (fun chans => length chans = c /\
                           Forall (fun row => length row = n) chans)
        batches
  | WOther k => k <> 2%nat /\ k <> 3%nat
  end.

Inductive failure : Type :=
| RankAtLeast            (* tf.assert_rank_at_least(waveforms, 2) *)
| SliceOutOfBounds       (* waveforms[1,:] on fewer than two channels *)
| InvalidReductionDim    (* tf.reduce_mean(x, 1) on a rank-1 tensor *)
| Stage (e : exn).       (* an error of a later stage *)

(** A call fails, or returns a tensor, or returns [None]. *)
Inductive outcome : Type :=
| Returned (r : option (tensor R))
| Failed (f : failure).

Definition of_result (r : result (tensor R)) : outcome :=
  match r with
  | Ok t => Returned (Some t)
  | Raise e => Failed (Stage e)
  end.

(** [waveforms[:,k,:]]. *)
Definition channel (k samples : nat) (batches : list (list (list R)))
  : tensor R :=
  Mat samples (map (fun chans => nth k chans []) batches).

Definition _gcc (x0 x1 : tensor R) (nfft ncorr : Z)
  (weighting scale : pystr) : result (tensor R) :=
  bind (signal_rfft x0 nfft) (fun X0 =>
  let X0 := tmap Cx.conj X0 in
  bind (signal_rfft x1 nfft) (fun X1 =>
  bind (broadcast2 Cx.mul X1 X0) (fun R01 =>
  let R01 := _filter R01 weighting in
  bind (signal_irfft R01 nfft) (fun r01 =>
  let r01 := check_numerics r01 in
  bind (_shift r01 nfft ncorr) (fun r01 =>
  Legacy._scale x0 r01 scale))))).

Definition gcc (w : waveforms) (max_delay : option Z)
  (weighting scale : pystr) : outcome :=
  if (ndims w <? 2)%nat then Failed RankAtLeast
  else
    match w with
    | W2 samples channels =>
        (* x0 = waveforms[0,:]; x1 = waveforms[1,:] are of rank 1, and
           the reduction along axis 1 does not exist for them *)
        if (length channels <? 2)%nat then Failed SliceOutOfBounds
        else Failed InvalidReductionDim
    | W3 channels samples batches =>
        if (channels <? 2)%nat then Failed SliceOutOfBounds
        else
          let x0 := channel 0 samples batches in
          let x1 := channel 1 samples batches in
          (* Get lengths *)
          let m := 2 * Z.of_nat samples - 1 in
          let ncorr :=
            match max_delay with
            | None => m
            | Some max_delay => Z.min m max_delay
            end in
          let nfft := 2 ^ next_power_of_two m in
          (* Remove DC *)
          of_result
            (bind (broadcast2 Rminus x0 (reduce_mean x0)) (fun x0 =>
             bind (broadcast2 Rminus x1 (reduce_mean x1)) (fun x1 =>
             _gcc x0 x1 nfft ncorr weighting scale)))
    | WOther _ => Returned None
    end.

End LegacyPipeline.

(** * Properties *)

(** ** Sanity checks of the embedding *)

Example next_power_of_two_values :
  map next_power_of_two [1; 2; 3; 7; 8; 9; 1023; 1024; 1025]
  = [0; 1; 2; 3; 3; 4; 10; 10; 11].
Proof. reflexivity. Qed.

Example next_power_of_two_negative : next_power_of_two (-1) = 1.
Proof. reflexivity. Qed.

Example of_int_rounds_to_even :
  map Float.of_int [2 ^ 53 - 1; 2 ^ 53 + 1; 2 ^ 53 + 2; 2 ^ 53 + 3]
  = [2 ^ 53 - 1; 2 ^ 53; 2 ^ 53 + 2; 2 ^ 53 + 4].
Proof. vm_compute. reflexivity. Qed.

Example slice_examples :
  slice 1 3 [10; 20; 30; 40] = [20; 30] /\
  slice 0 (-1) [10; 20; 30; 40] = [10; 20; 30] /\
  slice 3 9 [10; 20; 30; 40] = [40] /\
  slice 5 3 [10; 20; 30; 40] = [].
Proof. repeat split. Qed.

(** The lag reordering on a transform of length 8: with [ncorr = 2] the
    output holds entries 6, 0 and 1 of the inverse transform (entry 7 is
    not taken); there is no output without the strict inequality. *)
Example shift_example (r0 r1 r2 r3 r4 r5 r6 r7 : R) :
  _shift (Vec [r0; r1; r2; r3; r4; r5; r6; r7]) 8 2
  = Ok (Vec [r6; r0; r1]) /\
  _shift (Vec [r0; r1; r2; r3; r4; r5; r6; r7]) 8 7
  = Ok (Vec [r1; r2; r3; r4; r5; r6; r0; r1; r2; r3; r4; r5; r6]) /\
  _shift (Vec [r0; r1; r2; r3; r4; r5; r6; r7]) 8 8 = Raise AssertionError.
Proof. repeat split. Qed.

Example overlap_den_example :
  overlap_den 2 3 = [1; 1; 1; 2; 1; 1; 1] /\
  pad_edge [3; 4; 3] 1 = Ok [3; 4; 3; 3] /\
  pad_edge [4] (-1) = Raise ValueError_pad.
Proof. repeat split. Qed.

(** A value of [weighting] that [_filter] does not know is taken as
    [None]; only [gcc] of [src/tensorgcc/gcc.py] rejects it beforehand.
    The same holds of [scale] in the older [_scale]. *)
Example filter_unknown_weighting (R01 : tensor complex) :
  _filter R01 (Some "bogus"%string) = R01.
Proof. reflexivity. Qed.

Example legacy_scale_unknown (m n : nat) (xrows grows : list (list R)) :
  Legacy._scale (Mat m xrows) (Mat n grows) (Some "bogus"%string)
  = Ok (Mat n grows).
Proof. reflexivity. Qed.

(** ** The transform length *)

Section NextPowerOfTwo.

(** An integer below [2^53] is a double: the conversion is exact. *)
Lemma of_int_exact (n : Z) : 0 < n < 2 ^ 53 -> Float.of_int n = n.
Proof.
  intros [Hpos Hlt]. unfold Float.of_int, Float.prec.
  rewrite Z.abs_eq by lia.
  apply Z.log2_lt_pow2 in Hlt; [|assumption].
  destruct (Z.leb_spec (Z.log2 n + 1 - 53) 0); [reflexivity | lia].
Qed.

Lemma frexp_exact (n : Z) :
  0 < n < 2 ^ 53 ->
  Float.frexp n =
    (Qmake n (Z.to_pos (2 ^ (Z.log2 n + 1))), Z.log2 n + 1).
Proof.
  intros H. unfold Float.frexp. rewrite of_int_exact by assumption.
  unfold Float.frexp_value.
  destruct (Z.eqb_spec n 0); [lia|].
  rewrite Z.abs_eq by lia. reflexivity.
Qed.

(** On exactly representable arguments, [next_power_of_two] is the
    exponent of the least power of two that is at least [n]. *)
Lemma next_power_of_two_spec (n : Z) :
  0 < n < 2 ^ 53 ->
  let res := next_power_of_two n in
  0 <= res /\ n <= 2 ^ res /\ 2 ^ res < 2 * n.
Proof.
  intros H. cbv zeta. unfold next_power_of_two.
  rewrite frexp_exact by assumption.
  pose proof (Z.log2_spec n (proj1 H)) as [Hlo Hhi].
  pose proof (Z.log2_nonneg n) as Hnn.
  rewrite <- Z.add_1_r in Hhi.
  assert (Hpow : 2 ^ (Z.log2 n + 1) = 2 * 2 ^ Z.log2 n)
    by (rewrite Z.pow_add_r by lia; lia).
  unfold Qeq_bool. cbn [Qnum Qden].
  rewrite Z2Pos.id by lia.
  destruct (Z.eqb_spec (n * 2) (1 * 2 ^ (Z.log2 n + 1))) as [E|E].
  - replace (Z.log2 n + 1 - 1) with (Z.log2 n) by lia. lia.
  - lia.
Qed.

(** For an odd [m >= 3] the transform length is strictly larger. *)
Lemma next_power_of_two_odd (m : Z) :
  3 <= m < 2 ^ 53 -> Z.odd m = true -> m < 2 ^ next_power_of_two m.
Proof.
  intros H Hodd.
  destruct (next_power_of_two_spec m ltac:(lia)) as (Hnn & Hle & Hlt).
  destruct (Z.eq_dec m (2 ^ next_power_of_two m)) as [E|]; [|lia].
  exfalso.
  destruct (Z.eq_dec (next_power_of_two m) 0) as [E0|].
  - rewrite E0 in E. simpl in E. lia.
  - rewrite E in Hodd.
    rewrite Z.odd_pow in Hodd by lia. discriminate.
Qed.

End NextPowerOfTwo.

(** ** Shapes through the stages *)

Lemma zip_with_length {A B C} (f : A -> B -> C) (u : list A) (v : list B) :
  length (zip_with f u v) = Nat.min (length u) (length v).
Proof.
  revert v. induction u as [|a u IH]; intros [|b v]; simpl; auto.
Qed.

Lemma zip_with_Forall {A B C} (f : A -> B -> C) (P : C -> Prop)
  (Q0 : A -> Prop) (Q1 : B -> Prop) (u : list A) (v : list B) :
  (forall a b, Q0 a -> Q1 b -> P (f a b)) ->
  Forall Q0 u -> Forall Q1 v -> Forall P (zip_with f u v).
Proof.
  intros Hf Hu. revert v.
  induction Hu as [|a u Ha Hu IH]; intros v Hv; simpl; [constructor|].
  destruct Hv as [|b v Hb Hv]; constructor; auto.
Qed.

Section Shapes.
Context {A B C : Type}.

Lemma broadcast_dim_same (n : nat) : broadcast_dim n n = Ok n.
Proof. unfold broadcast_dim. now rewrite Nat.eqb_refl. Qed.

Lemma broadcast_dim_1_r (n : nat) : broadcast_dim n 1 = Ok n.
Proof.
  unfold broadcast_dim.
  destruct (Nat.eqb_spec n 1) as [->|]; reflexivity.
Qed.

Lemma broadcast_dim_ok (n0 n1 : nat) :
  n0 = n1 \/ n0 = 1%nat \/ n1 = 1%nat ->
  exists n, broadcast_dim n0 n1 = Ok n.
Proof.
  unfold broadcast_dim. intros H.
  destruct (Nat.eqb_spec n0 n1); [eauto|].
  destruct (Nat.eqb_spec n0 1); [eauto|].
  destruct (Nat.eqb_spec n1 1); [eauto|]. lia.
Qed.

Lemma broadcast_row_length (f : A -> B -> C) (u : list A) (v : list B)
  (c : nat) :
  broadcast_dim (length u) (length v) = Ok c ->
  length (broadcast_row f u v) = c.
Proof.
  unfold broadcast_dim, broadcast_row.
  destruct (Nat.eqb_spec (length u) (length v)) as [E|E].
  - intros [= <-]. rewrite zip_with_length. lia.
  - destruct (Nat.eqb_spec (length u) 1) as [E1|E1].
    + intros [= <-]. destruct u as [|a [|a' u]]; try discriminate.
      now rewrite length_map.
    + destruct (Nat.eqb_spec (length v) 1) as [E2|E2]; [|discriminate].
      intros [= <-]. destruct v as [|b [|b' v]]; try discriminate.
      destruct u as [|a [|a' u]]; simpl in *; try lia;
        now rewrite ?length_map.
Qed.

Lemma broadcast_rows_wf (f : A -> B -> C) (rows0 : list (list A))
  (rows1 : list (list B)) (c0 c1 c : nat) :
  broadcast_dim c0 c1 = Ok c ->
  Forall (fun r => length r = c0) rows0 ->
  Forall (fun r => length r = c1) rows1 ->
  Forall (fun r => length r = c) (broadcast_rows f rows0 rows1).
Proof.
  intros Hc H0 H1.
  assert (Hrow : forall r0 r1, length r0 = c0 -> length r1 = c1 ->
                   length (broadcast_row f r0 r1) = c).
  { intros r0 r1 E0 E1. apply broadcast_row_length. now rewrite E0, E1. }
  unfold broadcast_rows.
  destruct (Nat.eqb (length rows0) (length rows1)).
  - apply (zip_with_Forall _ _ (fun r => length r = c0)
             (fun r => length r = c1)); auto.
  - destruct rows0 as [|r0 [|r0' rows0]].
    + destruct rows1 as [|r1 [|? ?]]; constructor.
    + apply Forall_map. inversion H0; subst.
      eapply Forall_impl; [|exact H1]. simpl. auto.
    + destruct rows1 as [|r1 [|? ?]]; try constructor.
      * apply Hrow; [now inversion H0 | now inversion H1].
      * inversion H1; subst. inversion H0 as [|? ? ? H0']; subst.
        inversion H0'; subst. constructor; [auto|].
        apply Forall_map. eapply Forall_impl; [|eassumption]. simpl. auto.
Qed.

(** An elementwise operation on tensors of the same trailing dimension
    and compatible leading dimensions succeeds. *)
Lemma broadcast2_shape (f : A -> B -> C) (a : tensor A) (b : tensor B)
  (b0 b1 : option nat) (n : nat) :
  has_shape a b0 n -> has_shape b b1 n -> batch_compatible b0 b1 ->
  exists c bc, broadcast2 f a b = Ok c /\ has_shape c bc n.
Proof.
  intros (Hwa & Hba & Hla & Ha) (Hwb & Hbb & Hlb & Hb) Hcompat.
  destruct a as [u | c0 rows0 | ]; [| |contradiction];
    destruct b as [v | c1 rows1 | ]; try contradiction;
    simpl in *; subst b0 b1;
    injection Hla as Hla; injection Hlb as Hlb; subst.
  - rewrite Hlb, broadcast_dim_same. simpl.
    eexists _, None. split; [reflexivity|].
    repeat split. simpl. f_equal. apply broadcast_row_length.
    rewrite Hlb. apply broadcast_dim_same.
  - rewrite broadcast_dim_same. simpl.
    eexists _, (Some _). split; [reflexivity|].
    repeat split; simpl.
    apply Forall_map. eapply Forall_impl; [|exact Hwb].
    intros r Hr. apply broadcast_row_length. rewrite Hr.
    apply broadcast_dim_same.
  - rewrite broadcast_dim_same. simpl.
    eexists _, (Some _). split; [reflexivity|].
    repeat split; simpl.
    apply Forall_map. eapply Forall_impl; [|exact Hwa].
    intros r Hr. apply broadcast_row_length. rewrite Hr.
    apply broadcast_dim_same.
  - rewrite broadcast_dim_same. simpl.
    destruct (broadcast_dim_ok _ _ Hcompat) as [k ->]. simpl.
    eexists _, (Some _). split; [reflexivity|].
    repeat split; simpl.
    eapply broadcast_rows_wf; eauto using broadcast_dim_same.
Qed.

End Shapes.

Lemma map_last_shape {A B} (f : list A -> list B) (c' : nat) (x : tensor A)
  (b : option nat) (n : nat) :
  (forall r, length (f r) = c') ->
  has_shape x b n -> has_shape (map_last c' f x) b c'.
Proof.
  intros Hf (Hw & Hb & Hl & Hx).
  destruct x as [v | c rows | ]; [| |contradiction]; simpl in *.
  - unfold has_shape; simpl; repeat split; auto; now rewrite Hf.
  - unfold has_shape; simpl; repeat split; auto;
      rewrite ?length_map; auto.
    apply Forall_map, Forall_forall. auto.
Qed.

Lemma tmap_shape {A B} (f : A -> B) (x : tensor A) (b : option nat)
  (n : nat) :
  has_shape x b n -> has_shape (tmap f x) b n.
Proof.
  intros (Hw & Hb & Hl & Hx).
  destruct x as [v | c rows | ]; [| |contradiction]; simpl in *.
  - unfold has_shape; simpl; repeat split; auto; now rewrite length_map.
  - unfold has_shape; simpl; repeat split; auto;
      rewrite ?length_map; auto.
    apply Forall_map. eapply Forall_impl; [|exact Hw].
    intros r Hr. simpl. now rewrite length_map.
Qed.

(** *** DC removal *)

Lemma broadcast_row_mean (r : list R) :
  broadcast_row Rminus r [mean r] = center r.
Proof.
  unfold broadcast_row, center.
  destruct r as [|a [|a' r]]; reflexivity.
Qed.

Lemma zip_rows_mean (rows : list (list R)) :
  zip_with (broadcast_row Rminus) rows (map (fun row => [mean row]) rows)
  = map center rows.
Proof.
  induction rows as [|r rows IH]; simpl; [reflexivity|].
  now rewrite broadcast_row_mean, IH.
Qed.

(** The DC-removal lines of [gcc] never fail on a rank-1 or rank-2 tensor:
    they subtract from every row its own mean. *)
Lemma remove_dc_ok (x : tensor R) :
  match x with Other _ => False | _ => True end ->
  broadcast2 Rminus x (reduce_mean x) = Ok (remove_dc x).
Proof.
  destruct x as [v | c rows | ]; [| |contradiction]; intros _; simpl.
  - rewrite broadcast_dim_1_r. simpl. now rewrite broadcast_row_mean.
  - rewrite broadcast_dim_1_r. simpl.
    rewrite length_map, broadcast_dim_same. simpl.
    unfold broadcast_rows. rewrite length_map, Nat.eqb_refl.
    now rewrite zip_rows_mean.
Qed.

Lemma center_length (r : list R) : length (center r) = length r.
Proof. unfold center. apply length_map. Qed.

Lemma remove_dc_shape (x : tensor R) (b : option nat) (n : nat) :
  has_shape x b n -> has_shape (remove_dc x) b n.
Proof.
  intros (Hw & Hb & Hl & Hx).
  destruct x as [v | c rows | ]; [| |contradiction]; simpl in *.
  - unfold has_shape; simpl; repeat split; auto; now rewrite center_length.
  - unfold has_shape; simpl; repeat split; auto;
      rewrite ?length_map; auto.
    apply Forall_map. eapply Forall_impl; [|exact Hw].
    intros r Hr. simpl. now rewrite center_length.
Qed.

Lemma remove_dc_last_dim (x : tensor R) :
  last_dim (remove_dc x) = last_dim x.
Proof.
  destruct x; simpl; try reflexivity. now rewrite center_length.
Qed.

(** *** Transforms *)

Lemma rfft_row_length (nfft : nat) (x : list R) :
  length (rfft_row nfft x) = (nfft / 2 + 1)%nat.
Proof. unfold rfft_row. now rewrite length_map, length_seq. Qed.

Lemma irfft_row_length (nfft : nat) (X : list complex) :
  length (irfft_row nfft X) = nfft.
Proof. unfold irfft_row. now rewrite length_map, length_seq. Qed.

Lemma rfft_shape (x : tensor R) (nfft : Z) (b : option nat) (n : nat) :
  has_shape x b n -> has_shape (rfft x nfft) b (Z.to_nat nfft / 2 + 1).
Proof. apply map_last_shape, rfft_row_length. Qed.

Lemma irfft_shape (X : tensor complex) (nfft : Z) (b : option nat)
  (n : nat) :
  has_shape X b n -> has_shape (irfft X nfft) b (Z.to_nat nfft).
Proof. apply map_last_shape, irfft_row_length. Qed.

(** The transforms raise on an empty batch only. *)
Lemma fft_input_ok_nonempty {A} (x : tensor A) (need : nat) :
  batch x <> Some 0%nat -> fft_input_ok x need = true.
Proof.
  destruct x as [v|c rows|r]; try reflexivity.
  destruct rows; [intros H; now elim H | reflexivity].
Qed.

Lemma fft_input_ok_long {A} (x : tensor A) (need n : nat) :
  last_dim x = Some n -> (need <= n)%nat -> fft_input_ok x need = true.
Proof.
  destruct x as [v|c rows|r]; try reflexivity.
  simpl. intros [= ->] Hn. destruct rows; [|reflexivity].
  apply orb_true_iff. right. now apply Nat.leb_le.
Qed.

Lemma signal_rfft_nonempty (x : tensor R) (nfft : Z) :
  batch x <> Some 0%nat -> signal_rfft x nfft = Ok (rfft x nfft).
Proof.
  intros H. unfold signal_rfft. now rewrite fft_input_ok_nonempty.
Qed.

Lemma signal_rfft_cases (x : tensor R) (nfft : Z) :
  signal_rfft x nfft = Ok (rfft x nfft) \/
  signal_rfft x nfft = Raise InvalidArgument_fft.
Proof.
  unfold signal_rfft. destruct (fft_input_ok x (Z.to_nat nfft)); auto.
Qed.

(** A batch of no rows with at least two and fewer than [nfft] samples
    a row is refused. *)
Lemma signal_rfft_empty_batch (c : nat) (nfft : Z) :
  (1 <= c)%nat -> Z.of_nat c < nfft ->
  signal_rfft (Mat c []) nfft = Raise InvalidArgument_fft.
Proof.
  intros Hc Hn. unfold signal_rfft, fft_input_ok.
  replace (c =? 0)%nat with false by (symmetry; apply Nat.eqb_neq; lia).
  replace (Z.to_nat nfft <=? c)%nat with false
    by (symmetry; apply Nat.leb_gt; lia).
  reflexivity.
Qed.

Lemma signal_rfft_vec (v : list R) (nfft : Z) :
  signal_rfft (Vec v) nfft = Ok (Vec (rfft_row (Z.to_nat nfft) v)).
Proof. reflexivity. Qed.

Lemma signal_irfft_vec (V : list complex) (nfft : Z) :
  signal_irfft (Vec V) nfft = Ok (Vec (irfft_row (Z.to_nat nfft) V)).
Proof. reflexivity. Qed.

(** A transform of length 1 reads one sample: no tensor is refused. *)
Lemma signal_rfft_one (x : tensor R) :
  signal_rfft x 1 = Ok (rfft x 1).
Proof.
  unfold signal_rfft.
  destruct x as [v|c [|row rows]|r]; try reflexivity.
  now destruct c.
Qed.

(** The inverse transform of a spectrum of [nfft/2 + 1] bins, which is
    what the forward transform yields, is never refused. *)
Lemma signal_irfft_ok (X : tensor complex) (nfft : Z) :
  last_dim X = Some (Z.to_nat nfft / 2 + 1)%nat ->
  signal_irfft X nfft = Ok (irfft X nfft).
Proof.
  intros H. unfold signal_irfft.
  now rewrite (fft_input_ok_long X _ _ H (Nat.le_refl _)).
Qed.

Lemma filter_shape (R01 : tensor complex) (weighting : pystr)
  (b : option nat) (n : nat) :
  has_shape R01 b n -> has_shape (_filter R01 weighting) b n.
Proof.
  intros H. unfold _filter.
  destruct (pystr_eqb weighting PHAT); [now apply tmap_shape | assumption].
Qed.

(** *** Slicing and the lag reordering *)

Lemma slice_bound_range (len i : Z) :
  0 <= len -> 0 <= slice_bound len i <= len.
Proof.
  intros H. unfold slice_bound. destruct (Z.ltb_spec i 0); lia.
Qed.

Lemma slice_length {A} (start stop : Z) (l : list A) :
  length (slice start stop l) = slice_len (length l) start stop.
Proof.
  unfold slice, slice_len.
  pose proof (slice_bound_range (Z.of_nat (length l)) start ltac:(lia)).
  pose proof (slice_bound_range (Z.of_nat (length l)) stop ltac:(lia)).
  rewrite length_firstn, length_skipn. lia.
Qed.

Lemma slice_last_shape {A} (start stop : Z) (x : tensor A)
  (b : option nat) (n : nat) :
  has_shape x b n -> has_shape (slice_last start stop x) b
                       (slice_len n start stop).
Proof.
  intros (Hw & Hb & Hl & Hx).
  destruct x as [v | c rows | ]; [| |contradiction]; simpl in *.
  - injection Hl as <-. unfold has_shape; simpl; repeat split; auto;
      now rewrite slice_length.
  - injection Hl as <-. unfold has_shape; simpl; repeat split; auto;
      rewrite ?length_map; auto.
    apply Forall_map. eapply Forall_impl; [|exact Hw].
    intros r Hr. simpl. now rewrite slice_length, Hr.
Qed.

Lemma concat_last_shape {A} (a b : tensor A) (bt : option nat)
  (n0 n1 : nat) :
  has_shape a bt n0 -> has_shape b bt n1 ->
  exists c, concat_last a b = Ok c /\ has_shape c bt (n0 + n1).
Proof.
  intros (Hwa & Hba & Hla & Ha) (Hwb & Hbb & Hlb & Hb).
  destruct a as [u | c0 rows0 | ]; [| |contradiction];
    destruct b as [v | c1 rows1 | ]; try contradiction;
    simpl in *; subst bt; try discriminate.
  - injection Hla as <-. injection Hlb as <-.
    eexists. split; [reflexivity|]. unfold has_shape; simpl; repeat split.
    now rewrite length_app.
  - injection Hla as <-. injection Hlb as <-. injection Hbb as Hbb.
    rewrite Hbb, Nat.eqb_refl.
    eexists. split; [reflexivity|]. unfold has_shape; simpl; repeat split.
    + apply (zip_with_Forall _ _ (fun r => length r = c0)
               (fun r => length r = c1)); auto.
      intros r0 r1 <- <-. apply length_app.
    + f_equal. rewrite zip_with_length. lia.
Qed.

(** With [1 <= ncorr < N] the reordering yields [ncorr - 1] samples of
    the tail followed by [ncorr] samples of the head. *)
Lemma shift_shape (x : tensor R) (N ncorr : Z) (b : option nat) :
  has_shape x b (Z.to_nat N) -> 1 <= ncorr < N ->
  exists y, _shift x N ncorr = Ok y /\
            has_shape y b (Z.to_nat (2 * ncorr - 1)).
Proof.
  intros Hx Hn. unfold _shift.
  destruct (Z.ltb_spec ncorr N); [|lia]. cbn [negb].
  pose proof (slice_last_shape 0 ncorr _ _ _ Hx) as Hleft.
  pose proof (slice_last_shape (N - ncorr) (N - 1) _ _ _ Hx) as Hright.
  destruct (concat_last_shape _ _ _ _ _ Hright Hleft) as (y & Hy & Hs).
  exists y. split; [exact Hy|].
  replace (Z.to_nat (2 * ncorr - 1))
    with (slice_len (Z.to_nat N) (N - ncorr) (N - 1)
          + slice_len (Z.to_nat N) 0 ncorr)%nat; [exact Hs|].
  unfold slice_len, slice_bound. rewrite Z2Nat.id by lia.
  destruct (Z.ltb_spec (N - ncorr) 0); [lia|].
  destruct (Z.ltb_spec (N - 1) 0); [lia|].
  destruct (Z.ltb_spec ncorr 0); [lia|].
  change (0 <? 0) with false. cbv iota. lia.
Qed.

(** *** Scaling *)

Lemma arange_length (lo hi : Z) : length (arange lo hi) = Z.to_nat (hi - lo).
Proof. unfold arange. now rewrite length_map, length_seq. Qed.

Lemma arange_nth (lo hi : Z) (i : nat) (d : Z) :
  (i < Z.to_nat (hi - lo))%nat -> nth i (arange lo hi) d = lo + Z.of_nat i.
Proof.
  intros H. unfold arange.
  rewrite (nth_indep _ d (lo + Z.of_nat 0)) by
    now rewrite length_map, length_seq.
  rewrite (map_nth (fun i => lo + Z.of_nat i)), seq_nth by assumption.
  reflexivity.
Qed.

(** Clamping the non-positive entries to 1 is taking the maximum with 1. *)
Lemma overlap_den_eq (m L : Z) :
  overlap_den m L = map (lag_den m) (arange (- L) (L + 1)).
Proof.
  unfold overlap_den. rewrite map_map. apply map_ext. intros l.
  unfold lag_den. destruct (Z.leb_spec (m - Z.abs l) 0); lia.
Qed.

Lemma overlap_den_length (m L : Z) :
  0 <= L -> length (overlap_den m L) = Z.to_nat (2 * L + 1).
Proof.
  intros H. rewrite overlap_den_eq, length_map, arange_length. f_equal. lia.
Qed.

Lemma overlap_den_pos (m L : Z) : Forall (fun d => 0 < d) (overlap_den m L).
Proof.
  rewrite overlap_den_eq. apply Forall_map, Forall_forall.
  intros l _. unfold lag_den. lia.
Qed.

(** For a non-empty output the truncating division of the source is the
    floor, and the padded denominators are those of the specification. *)
Lemma padded_den_spec (m : Z) (gcc_len : nat) :
  (1 <= gcc_len)%nat ->
  let L := Z.quot (Z.of_nat gcc_len - 1) 2 in
  let den := overlap_den m L in
  pad_edge den (Z.of_nat gcc_len - Z.of_nat (length den))
  = Ok (spec_den m gcc_len).
Proof.
  intros Hlen L den. subst den L.
  rewrite Z.quot_div_nonneg by lia.
  set (L := (Z.of_nat gcc_len - 1) / 2).
  assert (HL : 0 <= L /\ 2 * L + 1 <= Z.of_nat gcc_len).
  { subst L. pose proof (Z.div_mod (Z.of_nat gcc_len - 1) 2 ltac:(lia)).
    pose proof (Z.mod_pos_bound (Z.of_nat gcc_len - 1) 2 ltac:(lia)).
    split; [apply Z.div_pos; lia | lia]. }
  unfold pad_edge, spec_den. fold L.
  rewrite overlap_den_length by lia.
  destruct (Z.ltb_spec (Z.of_nat gcc_len - Z.of_nat (Z.to_nat (2 * L + 1))) 0);
    [lia|].
  rewrite overlap_den_eq, length_map, arange_length.
  do 3 f_equal. lia.
Qed.

Lemma spec_den_length (m : Z) (len : nat) :
  (1 <= len)%nat -> length (spec_den m len) = len.
Proof.
  intros Hlen. unfold spec_den.
  set (L := (Z.of_nat len - 1) / 2).
  assert (HL : 0 <= L /\ 2 * L + 1 <= Z.of_nat len).
  { subst L. pose proof (Z.div_mod (Z.of_nat len - 1) 2 ltac:(lia)).
    pose proof (Z.mod_pos_bound (Z.of_nat len - 1) 2 ltac:(lia)).
    split; [apply Z.div_pos; lia | lia]. }
  rewrite length_app, repeat_length, length_map, arange_length. lia.
Qed.

Lemma last_Forall {A} (P : A -> Prop) (l : list A) (d : A) :
  Forall P l -> l <> [] -> P (last l d).
Proof.
  induction 1 as [|a l Ha Hl IH]; [congruence|]. intros _.
  destruct l as [|a' l']; [exact Ha|].
  change (P (last (a' :: l') d)). apply IH. discriminate.
Qed.

Lemma last_nth {A} (l : list A) (d : A) :
  last l d = nth (length l - 1) l d.
Proof.
  induction l as [|a l IH]; [reflexivity|].
  destruct l as [|a' l']; [reflexivity|].
  change (last (a' :: l') d = nth (length (a' :: l')) (a :: a' :: l') d).
  rewrite IH. simpl. now rewrite Nat.sub_0_r.
Qed.

Lemma spec_den_pos (m : Z) (len : nat) :
  Forall (fun d => 0 < d) (spec_den m len).
Proof.
  unfold spec_den.
  set (base := map (lag_den m) _).
  assert (Hbase : Forall (fun d => 0 < d) base).
  { apply Forall_map, Forall_forall. intros l _. unfold lag_den. lia. }
  apply Forall_app. split; [exact Hbase|].
  destruct (len - length base)%nat eqn:E; [constructor|].
  apply Forall_forall. intros d Hd. apply repeat_spec in Hd. subst d.
  apply last_Forall; [exact Hbase|].
  intros Hnil. rewrite Hnil in E. simpl in E.
  assert (Hlen : length base = 0%nat) by now rewrite Hnil.
  subst base. rewrite length_map, arange_length in Hlen.
  pose proof (Z.div_mod (Z.of_nat len - 1) 2 ltac:(lia)).
  pose proof (Z.mod_pos_bound (Z.of_nat len - 1) 2 ltac:(lia)).
  lia.
Qed.

(** Entry [i] of the denominators: lag [i - L] inside the symmetric part,
    the edge value beyond it. *)
Lemma spec_den_nth (m : Z) (len i : nat) :
  (i < len)%nat ->
  let L := (Z.of_nat len - 1) / 2 in
  nth i (spec_den m len) 0 = lag_den m (Z.min (Z.of_nat i) (2 * L) - L).
Proof.
  intros Hi L. unfold spec_den. fold L.
  assert (HL : 0 <= L /\ 2 * L + 1 <= Z.of_nat len <= 2 * L + 2).
  { subst L. pose proof (Z.div_mod (Z.of_nat len - 1) 2 ltac:(lia)).
    pose proof (Z.mod_pos_bound (Z.of_nat len - 1) 2 ltac:(lia)).
    split; [apply Z.div_pos; lia | lia]. }
  set (base := map (lag_den m) (arange (- L) (L + 1))).
  assert (Hlen : length base = Z.to_nat (2 * L + 1)).
  { subst base. rewrite length_map, arange_length. f_equal. lia. }
  assert (Hnth : forall j, (j < Z.to_nat (2 * L + 1))%nat ->
                   nth j base 0 = lag_den m (Z.of_nat j - L)).
  { intros j Hj. subst base.
    rewrite (nth_indep _ 0 (lag_den m 0)) by
      (rewrite length_map, arange_length; lia).
    rewrite map_nth, arange_nth by lia. f_equal. lia. }
  destruct (Nat.lt_ge_cases i (Z.to_nat (2 * L + 1))) as [Hin|Hout].
  - rewrite app_nth1 by lia. rewrite Hnth by assumption. f_equal. lia.
  - rewrite app_nth2 by lia.
    rewrite nth_repeat_lt by lia.
    replace (Z.min (Z.of_nat i) (2 * L)) with (2 * L) by lia.
    rewrite last_nth, Hlen, Hnth by lia. f_equal. lia.
Qed.

Lemma broadcast_row_same_length {A B C} (f : A -> B -> C) (u : list A)
  (v : list B) :
  length u = length v -> broadcast_row f u v = zip_with f u v.
Proof.
  intros E. unfold broadcast_row. now rewrite E, Nat.eqb_refl.
Qed.

(** Division of a tensor by a denominator array of its trailing length. *)
Lemma divide_by_den (gcc : tensor R) (den : list Z) (b : option nat) :
  has_shape gcc b (length den) ->
  broadcast2 Rdiv gcc (Vec (map IZR den)) = Ok (divide_rows den gcc).
Proof.
  intros (Hw & Hb & Hl & Hx).
  destruct gcc as [g | c rows | ]; [| |contradiction]; simpl in *;
    injection Hl as Hl; rewrite length_map.
  - rewrite Hl, broadcast_dim_same. simpl.
    rewrite broadcast_row_same_length by now rewrite length_map.
    reflexivity.
  - subst c. rewrite broadcast_dim_same. simpl. unfold divide_rows. simpl.
    do 2 f_equal. apply map_ext_in. intros r Hr.
    rewrite Forall_forall in Hw.
    apply broadcast_row_same_length. rewrite length_map. auto.
Qed.

Lemma divide_rows_shape (gcc : tensor R) (den : list Z) (b : option nat) :
  has_shape gcc b (length den) ->
  has_shape (divide_rows den gcc) b (length den).
Proof.
  intros H. unfold divide_rows.
  assert (Hgl : last_dim gcc = Some (length den)) by apply H.
  destruct H as (Hw & Hb & Hl & Hx).
  destruct gcc as [g | c rows | ]; [| |contradiction]; simpl in *.
  - unfold has_shape; simpl; repeat split; auto.
    injection Hl as Hl.
    now rewrite zip_with_length, length_map, Hl, Nat.min_id.
  - unfold has_shape; simpl; repeat split; auto;
      rewrite ?length_map; auto.
    injection Hl as ->.
    apply Forall_map. eapply Forall_impl; [|exact Hw].
    intros r Hr. simpl.
    now rewrite zip_with_length, length_map, Hr, Nat.min_id.
Qed.

Module TensorGCCFacts.
Import TensorGCC.

(** The unbiased branch divides by the denominators of the
    specification. *)
Lemma scale_unbiased_eq (x gcc : tensor R) (b : option nat) (n m : nat) :
  has_shape gcc b n -> last_dim x = Some m -> (1 <= n)%nat ->
  _scale x gcc unbiased = Ok (divide_rows (spec_den (Z.of_nat m) n) gcc).
Proof.
  intros Hg Hx Hn. unfold _scale. rewrite Hx.
  change (pystr_eqb unbiased biased) with false.
  change (pystr_eqb unbiased unbiased) with true. cbv iota.
  assert (Hl : last_dim gcc = Some n) by apply Hg. rewrite Hl.
  rewrite padded_den_spec by assumption. cbn [bind].
  apply divide_by_den with (b := b).
  now rewrite spec_den_length.
Qed.

Lemma scale_shape (x gcc : tensor R) (scale : pystr) (b : option nat)
  (n m : nat) :
  has_shape gcc b n -> last_dim x = Some m -> (1 <= n)%nat ->
  exists out, _scale x gcc scale = Ok out /\ has_shape out b n.
Proof.
  intros Hg Hx Hn.
  destruct (pystr_eqb scale biased) eqn:Eb.
  - unfold _scale. rewrite Hx, Eb.
    eexists. split; [reflexivity|]. now apply tmap_shape.
  - destruct (pystr_eqb scale unbiased) eqn:Eu.
    + assert (scale = unbiased) as ->.
      { destruct scale as [s|]; [|discriminate].
        simpl in Eu. apply String.eqb_eq in Eu. now subst. }
      rewrite (scale_unbiased_eq x gcc b n m) by assumption.
      eexists. split; [reflexivity|].
      pose proof (spec_den_length (Z.of_nat m) n Hn) as E.
      rewrite <- E at 2. apply divide_rows_shape. now rewrite E.
    + unfold _scale. rewrite Hx, Eb, Eu. eauto.
Qed.

End TensorGCCFacts.

(** ** The whole pipeline: success and output shape *)

Lemma assert_rank_in_signal {A} (x : tensor A) (b : option nat) (n : nat) :
  has_shape x b n -> assert_rank_in x [1; 2]%nat = true.
Proof.
  intros (_ & _ & _ & Hx). destruct x; [reflexivity | reflexivity | easy].
Qed.

Lemma has_shape_signal {A} (x : tensor A) (b : option nat) (n : nat) :
  has_shape x b n -> match x with Other _ => False | _ => True end.
Proof. intros H. apply H. Qed.

(** The number of lags kept on each side, as [gcc] computes it. *)
Lemma ncorr_bounds (N : nat) (max_delay : option Z) :
  (2 <= N)%nat -> 2 * Z.of_nat N - 1 < 2 ^ 53 ->
  let m := 2 * Z.of_nat N - 1 in
  let ncorr := match max_delay with
               | None => m
               | Some max_delay => Z.min m max_delay
               end in
  ncorr <= m < 2 ^ next_power_of_two m.
Proof.
  intros HN Hrep m ncorr. split.
  - subst ncorr. destruct max_delay; lia.
  - apply next_power_of_two_odd; [lia|].
    subst m. replace (2 * Z.of_nat N - 1) with (1 + 2 * (Z.of_nat N - 1))
      by lia.
    now rewrite Z.odd_add_mul_2.
Qed.

Lemma gcc_ok_shape (x0 x1 : tensor R) (b0 b1 : option nat) (N n1 : nat)
  (max_delay : option Z) (weighting scale : pystr) :
  has_shape x0 b0 N -> has_shape x1 b1 n1 -> batch_compatible b1 b0 ->
  b0 <> Some 0%nat -> b1 <> Some 0%nat ->
  py_in weighting [None; PHAT] = true ->
  py_in scale [None; biased; unbiased] = true ->
  (2 <= N)%nat -> 2 * Z.of_nat N - 1 < 2 ^ 53 ->
  let m := 2 * Z.of_nat N - 1 in
  let ncorr := match max_delay with
               | None => m
               | Some max_delay => Z.min m max_delay
               end in
  1 <= ncorr ->
  exists out b, TensorGCC.gcc x0 x1 max_delay weighting scale = Ok out /\
                has_shape out b (Z.to_nat (2 * ncorr - 1)).
Proof.
  intros H0 H1 Hb Hne0 Hne1 Hw Hs HN Hrep m ncorr Hncorr.
  pose proof (ncorr_bounds N max_delay HN Hrep) as Hbounds.
  cbv zeta in Hbounds. fold m in Hbounds. fold ncorr in Hbounds.
  unfold TensorGCC.gcc. rewrite Hw, Hs. cbn [negb].
  rewrite (assert_rank_in_signal _ _ _ H0), (assert_rank_in_signal _ _ _ H1).
  cbn [negb].
  assert (Hl0 : last_dim x0 = Some N) by apply H0. rewrite Hl0.
  rewrite (remove_dc_ok x0) by exact (has_shape_signal _ _ _ H0).
  rewrite (remove_dc_ok x1) by exact (has_shape_signal _ _ _ H1).
  cbn [bind]. fold m. fold ncorr.
  set (nfft := 2 ^ next_power_of_two m) in *.
  apply remove_dc_shape in H0, H1.
  unfold TensorGCC._gcc.
  rewrite (signal_rfft_nonempty (remove_dc x0))
    by (destruct H0 as (_ & -> & _); exact Hne0).
  rewrite (signal_rfft_nonempty (remove_dc x1))
    by (destruct H1 as (_ & -> & _); exact Hne1).
  cbn [bind].
  pose proof (tmap_shape Cx.conj _ _ _ (rfft_shape _ nfft _ _ H0)) as HX0.
  pose proof (rfft_shape _ nfft _ _ H1) as HX1.
  destruct (broadcast2_shape Cx.mul _ _ _ _ _ HX1 HX0 Hb)
    as (R01 & bR & -> & HR). cbn [bind].
  pose proof (filter_shape _ weighting _ _ HR) as HF.
  rewrite signal_irfft_ok by apply HF. cbn [bind].
  pose proof (irfft_shape _ nfft _ _ HF) as Hr.
  unfold check_numerics.
  destruct (shift_shape _ nfft ncorr _ Hr ltac:(lia)) as (y & -> & Hy).
  cbn [bind].
  destruct (TensorGCCFacts.scale_shape (remove_dc x0) y scale bR
              (Z.to_nat (2 * ncorr - 1)) N Hy) as (out & Hout & Hsh).
  - now rewrite remove_dc_last_dim.
  - lia.
  - exists out, bR. split; assumption.
Qed.

(** ** The transform length (C3) and the reordering precondition (C4) *)

(** C3.  For every sample count [N >= 1] whose [m = 2N - 1] is exactly
    representable as a double ([m < 2^53], which holds for every waveform
    that fits the transform backend), the transform length
    [nfft = 2 ^ next_power_of_two m] is a power of two (the exponent is a
    natural number) and [nfft >= 2N - 1]. *)
Theorem nfft_is_power_of_two_and_large_enough (N : nat) :
  (1 <= N)%nat -> 2 * Z.of_nat N - 1 < 2 ^ 53 ->
  let m := 2 * Z.of_nat N - 1 in
  let nfft := 2 ^ next_power_of_two m in
  (exists k : Z, 0 <= k /\ nfft = 2 ^ k) /\ 2 * Z.of_nat N - 1 <= nfft.
Proof.
  intros HN Hrep m nfft.
  destruct (next_power_of_two_spec m ltac:(subst m; lia)) as (Hk & Hle & _).
  split; [exists (next_power_of_two m); split; [exact Hk | reflexivity]|].
  exact Hle.
Qed.

Lemma nfft_is_power_of_two_and_large_enough_witness :
  let m := 2 * Z.of_nat 4 - 1 in
  let nfft := 2 ^ next_power_of_two m in
  (exists k : Z, 0 <= k /\ nfft = 2 ^ k) /\ 2 * Z.of_nat 4 - 1 <= nfft.
Proof.
  apply (nfft_is_power_of_two_and_large_enough 4); [lia | reflexivity].
Defined.

(** Where the bound on [m] comes from: [2^53 + 1] is not a double, the
    conversion inside [math.frexp] rounds it to [2^53], and the transform
    length computed for [N = 2^52 + 1] falls short of [2N - 1]. *)
Remark nfft_beyond_double_precision :
  let N := 2 ^ 52 + 1 in
  2 ^ next_power_of_two (2 * N - 1) = 2 ^ 53 /\
  2 ^ next_power_of_two (2 * N - 1) < 2 * N - 1.
Proof. vm_compute. split; reflexivity. Qed.

(** From two samples on, [ncorr <= m < nfft]: the assertion of [_shift]
    holds. *)
Lemma shift_precondition_from_two_samples (N : nat) (max_delay : option Z) :
  (2 <= N)%nat -> 2 * Z.of_nat N - 1 < 2 ^ 53 ->
  let m := 2 * Z.of_nat N - 1 in
  let ncorr := match max_delay with
               | None => m
               | Some max_delay => Z.min m max_delay
               end in
  let nfft := 2 ^ next_power_of_two m in
  (ncorr <? nfft) = true.
Proof.
  intros HN Hrep m ncorr nfft.
  pose proof (ncorr_bounds N max_delay HN Hrep) as H. cbv zeta in H.
  apply Z.ltb_lt. subst ncorr nfft m. lia.
Qed.

(** A single-sample waveform has [m = 1 = 2^0]: [nfft = ncorr = 1] and the
    assertion of [_shift] fails, whatever the other inputs. *)
Lemma gcc_single_sample_raises (x0 x1 : tensor R) (b0 b1 : option nat)
  (n1 : nat) (max_delay : option Z) (weighting scale : pystr) :
  has_shape x0 b0 1 -> has_shape x1 b1 n1 -> batch_compatible b1 b0 ->
  py_in weighting [None; PHAT] = true ->
  py_in scale [None; biased; unbiased] = true ->
  match max_delay with None => True | Some d => 1 <= d end ->
  TensorGCC.gcc x0 x1 max_delay weighting scale = Raise AssertionError.
Proof.
  intros H0 H1 Hb Hw Hs Hd.
  unfold TensorGCC.gcc. rewrite Hw, Hs. cbn [negb].
  rewrite (assert_rank_in_signal _ _ _ H0), (assert_rank_in_signal _ _ _ H1).
  cbn [negb].
  assert (Hl0 : last_dim x0 = Some 1%nat) by apply H0. rewrite Hl0.
  rewrite (remove_dc_ok x0) by exact (has_shape_signal _ _ _ H0).
  rewrite (remove_dc_ok x1) by exact (has_shape_signal _ _ _ H1).
  cbn [bind].
  change (2 * Z.of_nat 1 - 1) with 1.
  change (2 ^ next_power_of_two 1) with 1.
  apply remove_dc_shape in H0, H1.
  unfold TensorGCC._gcc.
  rewrite !signal_rfft_one. cbn [bind].
  pose proof (tmap_shape Cx.conj _ _ _ (rfft_shape _ 1 _ _ H0)) as HX0.
  pose proof (rfft_shape _ 1 _ _ H1) as HX1.
  destruct (broadcast2_shape Cx.mul _ _ _ _ _ HX1 HX0 Hb)
    as (R01 & bR & -> & HR). cbn [bind].
  rewrite signal_irfft_ok by apply (filter_shape _ weighting _ _ HR).
  cbn [bind].
  unfold _shift.
  replace (match max_delay with
           | Some max_delay0 => Z.min 1 max_delay0
           | None => 1
           end) with 1 by (destruct max_delay; lia).
  reflexivity.
Qed.

(** C4 (evaluation at the failing input).  On a pair of single-sample
    waveforms and without [max_delay], [nfft = ncorr = 1]: the precondition
    [nfft > ncorr] of the lag reordering does not hold and the call ends
    in the assertion error. *)
Theorem gcc_single_sample_assertion_fires (a b : R) :
  TensorGCC.gcc (Vec [a]) (Vec [b]) None None None = Raise AssertionError
  /\ classify AssertionError = ConfigError
  /\ 2 ^ next_power_of_two (2 * 1 - 1) = 1.
Proof.
  split; [|split; reflexivity].
  apply (gcc_single_sample_raises (Vec [a]) (Vec [b]) None None 1 None
           None None); try reflexivity; try exact I;
    unfold has_shape; simpl; auto.
Qed.

(** ** Unsupported options (C5) *)

Lemma py_in_false_weighting (w : pystr) :
  w <> None -> w <> PHAT -> py_in w [None; PHAT] = false.
Proof.
  intros Hn Hp. destruct w as [s|]; [|congruence].
  unfold py_in, PHAT in *. simpl.
  destruct (String.eqb_spec s "PHAT"); [subst; congruence | reflexivity].
Qed.

Lemma py_in_false_scale (s : pystr) :
  s <> None -> s <> biased -> s <> unbiased ->
  py_in s [None; biased; unbiased] = false.
Proof.
  intros Hn Hb Hu. destruct s as [s|]; [|congruence].
  unfold py_in, biased, unbiased in *. simpl.
  destruct (String.eqb_spec s "biased"); [subst; congruence|].
  destruct (String.eqb_spec s "unbiased"); [subst; congruence | reflexivity].
Qed.

(** C5.  Whatever the input pair and [max_delay]: a [weighting] other
    than [None] and ["PHAT"] makes [gcc] raise its "weighting not
    supported" error, and a [scale] other than [None], ["biased"] and
    ["unbiased"] makes it raise a configuration error (the scale error, or
    the weighting error when the weighting is unsupported as well). *)
Theorem gcc_rejects_unsupported_options (x0 x1 : tensor R)
  (max_delay : option Z) (weighting scale : pystr) :
  (weighting <> None -> weighting <> PHAT ->
   TensorGCC.gcc x0 x1 max_delay weighting scale
   = Raise ValueError_weighting
   /\ classify ValueError_weighting = ConfigError)
  /\
  (scale <> None -> scale <> biased -> scale <> unbiased ->
   exists e, TensorGCC.gcc x0 x1 max_delay weighting scale = Raise e
             /\ classify e = ConfigError
             /\ (py_in weighting [None; PHAT] = true ->
                 e = ValueError_scale)).
Proof.
  split.
  - intros Hn Hp. split; [|reflexivity].
    unfold TensorGCC.gcc. now rewrite py_in_false_weighting.
  - intros Hn Hb Hu. unfold TensorGCC.gcc.
    rewrite (py_in_false_scale scale) by assumption.
    destruct (py_in weighting [None; PHAT]); cbn [negb].
    + exists ValueError_scale. auto.
    + exists ValueError_weighting. repeat split. discriminate.
Qed.

Lemma gcc_rejects_unsupported_options_witness :
  TensorGCC.gcc (Vec [1; 0]%R) (Vec [0; 1]%R) None (Some "bogus"%string) None
  = Raise ValueError_weighting
  /\ exists e, TensorGCC.gcc (Vec [1; 0]%R) (Vec [0; 1]%R) None None
                 (Some "bogus"%string) = Raise e
               /\ classify e = ConfigError.
Proof.
  split.
  - apply (gcc_rejects_unsupported_options (Vec [1; 0]%R) (Vec [0; 1]%R)
             None (Some "bogus"%string) None); discriminate.
  - destruct (gcc_rejects_unsupported_options (Vec [1; 0]%R) (Vec [0; 1]%R)
                None None (Some "bogus"%string)) as [_ H].
    destruct H as (e & He & Hc & _); try discriminate.
    exists e. split; assumption.
Defined.

(** ** Output length (C1) *)

(** C1 (the code at the failing inputs).  The docstring of [gcc] promises
    an output of length [min(2*M+1, max_delay)] and the claim one of
    length [2N - 1], or [min(2N - 1, max_delay)]; the code returns
    [2 ncorr - 1] samples, [ncorr = min(2N - 1, max_delay)].  Two samples
    per signal and no [max_delay] give 5 output samples, not
    [2N - 1 = 3]; four samples and [max_delay = 3] give 5 output samples,
    not [min(2N - 1, max_delay) = 3]. *)
Theorem gcc_output_length_at_failing_inputs :
  (exists out,
     TensorGCC.gcc (Vec [1; 2]%R) (Vec [3; 4]%R) None None None = Ok out /\
     last_dim out = Some 5%nat /\
     last_dim out <> Some (2 * 2 - 1)%nat)
  /\
  (exists out,
     TensorGCC.gcc (Vec [1; 0; -1; 0]%R) (Vec [1; 0; -1; 0]%R) (Some 3)
       None None = Ok out /\
     last_dim out = Some 5%nat /\
     last_dim out <> Some (Nat.min (2 * 4 - 1) 3)).
Proof.
  split.
  - destruct (gcc_ok_shape (Vec [1; 2]%R) (Vec [3; 4]%R) None None 2 2
                None None None) as (out & b & Hout & Hs);
      try reflexivity; try exact I; try discriminate; try lia;
      try (unfold has_shape; simpl; now auto).
    exists out. split; [exact Hout|].
    destruct Hs as (_ & _ & Hl & _). rewrite Hl.
    split; [reflexivity | discriminate].
  - destruct (gcc_ok_shape (Vec [1; 0; -1; 0]%R) (Vec [1; 0; -1; 0]%R)
                None None 4 4 (Some 3) None None) as (out & b & Hout & Hs);
      try reflexivity; try exact I; try discriminate; try lia;
      try (unfold has_shape; simpl; now auto).
    exists out. split; [exact Hout|].
    destruct Hs as (_ & _ & Hl & _). rewrite Hl.
    split; [reflexivity | discriminate].
Qed.

(** ** Mismatched sample counts (C6) *)

(** C6, as stated, fails: three samples against two raise nothing. *)
Lemma mismatched_samples_counterexample :
  last_dim (Vec [1; 2; 3]%R) = Some 3%nat /\
  last_dim (Vec [1; 2]%R) = Some 2%nat /\
  exists out,
    TensorGCC.gcc (Vec [1; 2; 3]%R) (Vec [1; 2]%R) None None None = Ok out.
Proof.
  split; [reflexivity|]. split; [reflexivity|].
  destruct (gcc_ok_shape (Vec [1; 2; 3]%R) (Vec [1; 2]%R) None None 3 2
              None None None) as (out & b & Hout & Hs);
    try reflexivity; try exact I; try discriminate; try lia;
    try (unfold has_shape; simpl; now auto).
  exists out. exact Hout.
Qed.

(** C6, amended.  [gcc] never compares the sample counts of its two
    inputs.  For inputs of rank 1 or 2 whose sample counts differ, with
    at least two samples in [x0] and one in [x1], leading dimensions that
    are not 0 and broadcast against each other, supported options and
    [max_delay >= 1] when given, [gcc] raises no error: it returns a
    result. *)
Theorem gcc_accepts_mismatched_samples (x0 x1 : tensor R)
  (b0 b1 : option nat) (N n1 : nat) (max_delay : option Z)
  (weighting scale : pystr) :
  has_shape x0 b0 N -> has_shape x1 b1 n1 -> n1 <> N ->
  batch_compatible b1 b0 ->
  b0 <> Some 0%nat -> b1 <> Some 0%nat ->
  weighting = None \/ weighting = PHAT ->
  scale = None \/ scale = biased \/ scale = unbiased ->
  (2 <= N)%nat -> (1 <= n1)%nat -> 2 * Z.of_nat N - 1 < 2 ^ 53 ->
  match max_delay with None => True | Some d => 1 <= d end ->
  exists out, TensorGCC.gcc x0 x1 max_delay weighting scale = Ok out.
Proof.
  intros H0 H1 _ Hb Hne0 Hne1 Hw Hsc HN _ Hrep Hd.
  destruct (gcc_ok_shape x0 x1 b0 b1 N n1 max_delay weighting scale H0 H1 Hb)
    as (out & b & Hout & Hs); try assumption.
  { destruct Hw as [-> | ->]; reflexivity. }
  { destruct Hsc as [-> | [-> | ->]]; reflexivity. }
  { destruct max_delay; lia. }
  exists out. exact Hout.
Qed.

Lemma gcc_accepts_mismatched_samples_witness :
  exists out,
    TensorGCC.gcc (Vec [1; 2; 3]%R) (Mat 2 [[1; 2]; [0; 1]]%R) (Some 2)
      PHAT unbiased = Ok out.
Proof.
  apply (gcc_accepts_mismatched_samples (Vec [1; 2; 3]%R)
           (Mat 2 [[1; 2]; [0; 1]]%R) None (Some 2%nat) 3 2 (Some 2)
           PHAT unbiased);
    try exact I; try discriminate; try lia; try reflexivity; auto;
    unfold has_shape; simpl; auto.
Defined.

(** ** Biased scaling (C7) *)

Lemma broadcast2_sub_mean_last_dim (x x' : tensor R) :
  broadcast2 Rminus x (reduce_mean x) = Ok x' -> last_dim x' = last_dim x.
Proof.
  destruct x as [v | c rows | r].
  - rewrite remove_dc_ok by exact I. intros [= <-].
    apply (remove_dc_last_dim (Vec v)).
  - rewrite remove_dc_ok by exact I. intros [= <-].
    apply (remove_dc_last_dim (Mat c rows)).
  - discriminate.
Qed.

(** C7.  For every input pair with [N] samples in [x0], every [max_delay]
    and every weighting, [gcc(..., scale="biased")] is
    [gcc(..., scale=None)] with every entry divided by [N]; when the
    unscaled call raises, the biased call raises the same error. *)
Theorem gcc_biased_is_unscaled_over_N (x0 x1 : tensor R) (N : nat)
  (max_delay : option Z) (weighting : pystr) :
  last_dim x0 = Some N ->
  TensorGCC.gcc x0 x1 max_delay weighting biased
  = rmap (tmap (fun v => (v / INR N)%R))
      (TensorGCC.gcc x0 x1 max_delay weighting None).
Proof.
  intros HN. unfold TensorGCC.gcc.
  destruct (py_in weighting [None; PHAT]); [|reflexivity].
  change (py_in biased [None; biased; unbiased]) with true.
  change (py_in None [None; biased; unbiased]) with true.
  cbn [negb].
  destruct (assert_rank_in x0 [1; 2]%nat); [|reflexivity].
  destruct (assert_rank_in x1 [1; 2]%nat); [|reflexivity].
  cbn [negb]. rewrite HN.
  destruct (broadcast2 Rminus x0 (reduce_mean x0)) as [x0'|e] eqn:E0;
    [|reflexivity].
  destruct (broadcast2 Rminus x1 (reduce_mean x1)) as [x1'|e]; [|reflexivity].
  cbn [bind]. unfold TensorGCC._gcc.
  destruct (signal_rfft x0' _) as [X0|e]; [|reflexivity]. cbn [bind].
  destruct (signal_rfft x1' _) as [X1|e]; [|reflexivity]. cbn [bind].
  destruct (broadcast2 Cx.mul _ _) as [R01|e]; [|reflexivity].
  cbn [bind].
  destruct (signal_irfft _ _) as [r|e]; [|reflexivity]. cbn [bind].
  destruct (_shift _ _ _) as [r01|e]; [|reflexivity].
  cbn [bind]. unfold TensorGCC._scale.
  rewrite (broadcast2_sub_mean_last_dim _ _ E0), HN.
  reflexivity.
Qed.

Lemma gcc_biased_is_unscaled_over_N_witness :
  TensorGCC.gcc (Vec [1; 0; -1; 0]%R) (Vec [0; 1; 0; -1]%R) None PHAT biased
  = rmap (tmap (fun v => (v / INR 4)%R))
      (TensorGCC.gcc (Vec [1; 0; -1; 0]%R) (Vec [0; 1; 0; -1]%R) None PHAT
         None).
Proof.
  apply (gcc_biased_is_unscaled_over_N (Vec [1; 0; -1; 0]%R)
           (Vec [0; 1; 0; -1]%R) 4 None PHAT).
  reflexivity.
Defined.

(** ** Constant offsets (C10) *)

Section Offsets.
Local Open Scope R_scope.









End Offsets.

(** ** Unbiased scaling (C8, C9) *)

Lemma zip_with_nth {A B C} (f : A -> B -> C) (u : list A) (v : list B)
  (i : nat) (da : A) (db : B) (dc : C) :
  (i < length u)%nat -> (i < length v)%nat ->
  nth i (zip_with f u v) dc = f (nth i u da) (nth i v db).
Proof.
  revert v i. induction u as [|a u IH]; intros [|b v] [|i] Hu Hv;
    simpl in *; try lia; [reflexivity|].
  apply IH; lia.
Qed.

(** C8.  With [scale="unbiased"] and a non-empty output of trailing
    length [len], [_scale] divides every row, entry by entry, by a
    denominator array [den] of length [len] whose entries are strictly
    positive; entry [i] of the symmetric part ([i <= 2L],
    [L = floor((len - 1) / 2)]) is [max(1, num_samples - |l|)] for the lag
    [l = i - L]; and when [len] is even, the last entry repeats the edge
    value of the symmetric part, so that every output entry has a
    denominator. *)
Theorem unbiased_scale_denominators (x gcc : tensor R) (b : option nat)
  (len num_samples : nat) :
  has_shape gcc b len -> last_dim x = Some num_samples -> (1 <= len)%nat ->
  let L := (Z.of_nat len - 1) / 2 in
  let den := spec_den (Z.of_nat num_samples) len in
  TensorGCC._scale x gcc unbiased = Ok (divide_rows den gcc) /\
  length den = len /\
  Forall (fun d => 0 < d) den /\
  (forall i, (i < len)%nat -> Z.of_nat i <= 2 * L ->
     nth i den 0
     = Z.max 1 (Z.of_nat num_samples - Z.abs (Z.of_nat i - L))) /\
  (Nat.even len = true ->
     nth (len - 1) den 0 = nth (len - 2) den 0 /\
     nth (len - 1) den 0 = Z.max 1 (Z.of_nat num_samples - L)) /\
  (forall row i, length row = len -> (i < len)%nat ->
     nth i (zip_with Rdiv row (map IZR den)) 0%R
     = (nth i row 0 / IZR (nth i den 0%Z))%R).
Proof.
  intros Hg Hx Hlen L den.
  assert (HL : 0 <= L /\ 2 * L + 1 <= Z.of_nat len <= 2 * L + 2).
  { subst L. pose proof (Z.div_mod (Z.of_nat len - 1) 2 ltac:(lia)).
    pose proof (Z.mod_pos_bound (Z.of_nat len - 1) 2 ltac:(lia)).
    split; [apply Z.div_pos; lia | lia]. }
  split; [exact (TensorGCCFacts.scale_unbiased_eq x gcc b len num_samples
                   Hg Hx Hlen)|].
  split; [now apply spec_den_length|].
  split; [apply spec_den_pos|].
  split; [|split].
  - intros i Hi HiL. subst den. rewrite spec_den_nth by assumption.
    fold L. unfold lag_den. f_equal. f_equal. f_equal. lia.
  - intros Heven.
    assert (Hlen2 : Z.of_nat len = 2 * L + 2).
    { apply Nat.even_spec in Heven. destruct Heven as [k Hk]. lia. }
    subst den. rewrite !spec_den_nth by lia. fold L. unfold lag_den.
    split; do 3 f_equal; lia.
  - intros row i Hrow Hi.
    rewrite (zip_with_nth Rdiv row (map IZR den) i 0%R (IZR 0) 0%R).
    + now rewrite map_nth.
    + lia.
    + subst den. rewrite length_map, spec_den_length; lia.
Qed.

Lemma unbiased_scale_denominators_witness :
  let x := Vec [1; 2; 3]%R in
  let gcc := Vec [6; 6; 6; 6]%R in
  let den := spec_den 3 4 in
  TensorGCC._scale x gcc unbiased = Ok (divide_rows den gcc) /\
  den = [2; 3; 2; 2].
Proof.
  split; [|reflexivity].
  apply (unbiased_scale_denominators (Vec [1; 2; 3]%R) (Vec [6; 6; 6; 6]%R)
           None 4 3); [|reflexivity|lia].
  unfold has_shape; simpl; auto.
Defined.

(** An empty output (only reachable with [max_delay = 0]) is the one
    length for which the padding width is negative. *)
Example unbiased_scale_empty_output (x : list R) :
  TensorGCC._scale (Vec x) (Vec []) unbiased = Raise ValueError_pad.
Proof. reflexivity. Qed.

(** The padding is the only difference between the two [_scale]
    functions. *)
Lemma scale_unbiased_odd_no_padding (m : Z) (n : nat) :
  Nat.odd n = true ->
  let den := overlap_den m (Z.quot (Z.of_nat n - 1) 2) in
  pad_edge den (Z.of_nat n - Z.of_nat (length den)) = Ok den.
Proof.
  intros Hodd den.
  apply Nat.odd_spec in Hodd. destruct Hodd as [k Hk].
  assert (HL : Z.quot (Z.of_nat n - 1) 2 = Z.of_nat k).
  { replace (Z.of_nat n - 1) with (Z.of_nat k * 2) by lia.
    apply Z.quot_mul. lia. }
  subst den. rewrite HL. unfold pad_edge.
  rewrite overlap_den_length by lia.
  replace (Z.of_nat n - Z.of_nat (Z.to_nat (2 * Z.of_nat k + 1))) with 0
    by lia.
  simpl. now rewrite app_nil_r.
Qed.

(** C9.  On batches whose correlation output has odd trailing length the
    unbiased scaling of [src/tensorgcc/gcc.py] and of [src/gcc/gcc.py]
    agree; on an output of even length 4 they diverge: the former pads
    the three denominators to four and divides, the latter meets
    incompatible shapes. *)
Theorem unbiased_scaling_of_the_two_implementations :
  (forall (m n : nat) (xrows grows : list (list R)),
     Nat.odd n = true ->
     TensorGCC._scale (Mat m xrows) (Mat n grows) unbiased
     = Legacy._scale (Mat m xrows) (Mat n grows) unbiased)
  /\
  (let x := Mat 4 [[1; 0; -1; 0]]%R in
   let gcc := Mat 4 [[6; 12; 6; 6]]%R in
   Nat.even 4 = true /\
   TensorGCC._scale x gcc unbiased
   = Ok (Mat 4 [[6 / 3; 12 / 4; 6 / 3; 6 / 3]]%R) /\
   Legacy._scale x gcc unbiased = Raise IncompatibleShapes).
Proof.
  split.
  - intros m n xrows grows Hodd.
    unfold TensorGCC._scale, Legacy._scale. cbn [last_dim].
    change (pystr_eqb unbiased biased) with false.
    change (pystr_eqb unbiased unbiased) with true. cbv iota.
    now rewrite scale_unbiased_odd_no_padding.
  - split; [reflexivity|]. split; reflexivity.
Qed.

Lemma unbiased_scaling_of_the_two_implementations_witness :
  TensorGCC._scale (Mat 2 [[1; -1]]%R) (Mat 3 [[2; 4; 2]]%R) unbiased
  = Legacy._scale (Mat 2 [[1; -1]]%R) (Mat 3 [[2; 4; 2]]%R) unbiased.
Proof.
  destruct unbiased_scaling_of_the_two_implementations as [Hodd _].
  apply (Hodd 2%nat 3%nat [[1; -1]]%R [[2; 4; 2]]%R). reflexivity.
Defined.

(** ** The spectral stages compute the circular cross-correlation *)

Section FiniteSums.
Local Open Scope R_scope.

Lemma sumR_ext (n : nat) (f g : nat -> R) :
  (forall k, (k < n)%nat -> f k = g k) -> sumR n f = sumR n g.
Proof.
  induction n as [|n IH]; intros H; simpl; [reflexivity|].
  rewrite IH, H by auto. reflexivity.
Qed.

Lemma sumR_plus (n : nat) (f g : nat -> R) :
  sumR n (fun k => f k + g k) = sumR n f + sumR n g.
Proof. induction n as [|n IH]; simpl; [|rewrite IH]; ring. Qed.

Lemma sumR_scal (n : nat) (c : R) (f : nat -> R) :
  sumR n (fun k => c * f k) = c * sumR n f.
Proof. induction n as [|n IH]; simpl; [|rewrite IH]; ring. Qed.

Lemma sumR_zero (n : nat) : sumR n (fun _ => 0) = 0.
Proof. induction n as [|n IH]; simpl; [|rewrite IH]; ring. Qed.

Lemma sumR_const (n : nat) (c : R) : sumR n (fun _ => c) = INR n * c.
Proof.
  induction n as [|n IH]; [simpl; ring|].
  rewrite S_INR. simpl. rewrite IH. ring.
Qed.

Lemma sumR_swap (n m : nat) (g : nat -> nat -> R) :
  sumR n (fun k => sumR m (fun a => g k a))
  = sumR m (fun a => sumR n (fun k => g k a)).
Proof.
  induction n as [|n IH]; simpl.
  - now rewrite sumR_zero.
  - now rewrite IH, sumR_plus.
Qed.

(** A sum with a single non-zero term. *)
Lemma sumR_single (n c : nat) (v : R) :
  (c < n)%nat ->
  sumR n (fun a => if Nat.eqb a c then v else 0) = v.
Proof.
  induction n as [|n IH]; intros Hc; [lia|]. simpl.
  destruct (Nat.eqb_spec n c) as [->|Hne].
  - rewrite (sumR_ext c _ (fun _ => 0)).
    + rewrite sumR_zero. ring.
    + intros k Hk. destruct (Nat.eqb_spec k c); [lia | reflexivity].
  - rewrite IH by lia. ring.
Qed.

Lemma re_sum (n : nat) (f : nat -> complex) :
  Cx.re (Cx.sum n f) = sumR n (fun k => Cx.re (f k)).
Proof. induction n as [|n IH]; simpl; [|rewrite IH]; reflexivity. Qed.

Lemma sum_ext (n : nat) (f g : nat -> complex) :
  (forall k, (k < n)%nat -> f k = g k) -> Cx.sum n f = Cx.sum n g.
Proof.
  induction n as [|n IH]; intros H; simpl; [reflexivity|].
  rewrite IH, H by auto. reflexivity.
Qed.

End FiniteSums.

Section RootsOfUnity.
Local Open Scope R_scope.

Lemma sin_period_Z (x : R) (d : Z) : sin (x + 2 * IZR d * PI) = sin x.
Proof.
  destruct (Z.le_gt_cases 0 d) as [Hd|Hd].
  - rewrite <- (Z2Nat.id d Hd), <- INR_IZR_INZ. apply sin_period.
  - rewrite <- (sin_period (x + 2 * IZR d * PI) (Z.to_nat (- d))).
    f_equal. rewrite INR_IZR_INZ, Z2Nat.id by lia.
    rewrite opp_IZR. ring.
Qed.

Lemma cos_period_Z (x : R) (d : Z) : cos (x + 2 * IZR d * PI) = cos x.
Proof.
  destruct (Z.le_gt_cases 0 d) as [Hd|Hd].
  - rewrite <- (Z2Nat.id d Hd), <- INR_IZR_INZ. apply cos_period.
  - rewrite <- (cos_period (x + 2 * IZR d * PI) (Z.to_nat (- d))).
    f_equal. rewrite INR_IZR_INZ, Z2Nat.id by lia.
    rewrite opp_IZR. ring.
Qed.

(** The telescoping identity behind the sum of the cosines of an
    arithmetic progression. *)
Lemma cos_sum_telescope (t : R) (n : nat) :
  2 * sin (t / 2) * sumR n (fun k => cos (INR k * t))
  = sin ((INR n - 1 / 2) * t) + sin (t / 2).
Proof.
  induction n as [|n IH].
  - simpl. replace ((0 - 1 / 2) * t) with (- (t / 2)) by field.
    rewrite sin_neg. ring.
  - rewrite S_INR. simpl sumR.
    rewrite Rmult_plus_distr_l, IH.
    replace ((INR n + 1 - 1 / 2) * t) with (INR n * t + t / 2) by field.
    replace ((INR n - 1 / 2) * t) with (INR n * t - t / 2) by field.
    rewrite sin_plus, sin_minus. ring.
Qed.

(** The [N]-th roots of unity sum to [N] or to [0]: real part. *)
Lemma cos_sum_roots (N : nat) (d : Z) :
  (1 <= N)%nat ->
  sumR N (fun k => cos (INR k * (2 * PI * IZR d / INR N)))
  = if (d mod Z.of_nat N =? 0)%Z then INR N else 0.
Proof.
  intros HN.
  assert (HNr : INR N <> 0) by (apply not_0_INR; lia).
  destruct (Z.eqb_spec (d mod Z.of_nat N) 0) as [Hdiv|Hndiv].
  - apply Z.mod_divide in Hdiv; [|lia]. destruct Hdiv as [q ->].
    rewrite (sumR_ext N _ (fun _ => 1)).
    + rewrite sumR_const. ring.
    + intros k _. rewrite mult_IZR, <- INR_IZR_INZ.
      replace (INR k * (2 * PI * (IZR q * INR N) / INR N))
        with (0 + 2 * IZR (Z.of_nat k * q) * PI).
      * rewrite cos_period_Z. apply cos_0.
      * rewrite mult_IZR, <- INR_IZR_INZ. field. assumption.
  - set (t := 2 * PI * IZR d / INR N).
    assert (Hsin : sin (t / 2) <> 0).
    { intros H0. apply sin_eq_0_0 in H0. destruct H0 as [q Hq].
      apply Hndiv. apply Z.mod_divide; [lia|]. exists q.
      apply eq_IZR. rewrite mult_IZR, <- INR_IZR_INZ.
      assert (HPI : PI <> 0) by (apply PI_neq0).
      subst t.
      assert (E : IZR d / INR N * PI = IZR q * PI).
      { rewrite <- Hq. field. assumption. }
      apply Rmult_eq_reg_r in E; [|assumption].
      rewrite <- E. field. assumption. }
    pose proof (cos_sum_telescope t N) as Htel.
    replace ((INR N - 1 / 2) * t) with (- (t / 2) + 2 * IZR d * PI)
      in Htel by (subst t; field; assumption).
    rewrite sin_period_Z, sin_neg in Htel.
    assert (E : 2 * sin (t / 2) * sumR N (fun k => cos (INR k * t)) = 0)
      by lra.
    apply Rmult_integral in E. destruct E as [E|E]; [lra | exact E].
Qed.

End RootsOfUnity.

Section ComplexAlgebra.
Local Open Scope R_scope.

Ltac cx_ring :=
  unfold Cx.mul, Cx.add, Cx.conj, Cx.of_real, Cx.cis, Cx.zero, Cx.re,
    Cx.im; simpl; f_equal; ring.

Lemma mul_sum_l (n : nat) (f : nat -> complex) (w : complex) :
  Cx.mul (Cx.sum n f) w = Cx.sum n (fun a => Cx.mul (f a) w).
Proof.
  induction n as [|n IH]; simpl; [cx_ring|].
  rewrite <- IH. cx_ring.
Qed.

Lemma mul_sum_r (n : nat) (z : complex) (g : nat -> complex) :
  Cx.mul z (Cx.sum n g) = Cx.sum n (fun b => Cx.mul z (g b)).
Proof.
  induction n as [|n IH]; simpl; [cx_ring|].
  rewrite <- IH. cx_ring.
Qed.

Lemma conj_sum (n : nat) (f : nat -> complex) :
  Cx.conj (Cx.sum n f) = Cx.sum n (fun a => Cx.conj (f a)).
Proof.
  induction n as [|n IH]; simpl; [cx_ring|].
  rewrite <- IH. cx_ring.
Qed.

Lemma conj_mul (z w : complex) :
  Cx.conj (Cx.mul z w) = Cx.mul (Cx.conj z) (Cx.conj w).
Proof. cx_ring. Qed.

Lemma conj_conj (z : complex) : Cx.conj (Cx.conj z) = z.
Proof. destruct z as [a b]. cx_ring. Qed.

Lemma conj_real_cis (a t : R) :
  Cx.conj (Cx.mul (Cx.of_real a) (Cx.cis t))
  = Cx.mul (Cx.of_real a) (Cx.cis (- t)).
Proof.
  unfold Cx.mul, Cx.conj, Cx.of_real, Cx.cis, Cx.re, Cx.im. simpl.
  rewrite cos_neg, sin_neg. f_equal; ring.
Qed.

(** The real part of one term of the expanded cross-spectrum. *)
Lemma re_term (ya xb pa pb pj : R) :
  Cx.re (Cx.mul
           (Cx.mul (Cx.mul (Cx.of_real ya) (Cx.cis (- pa)))
              (Cx.conj (Cx.mul (Cx.of_real xb) (Cx.cis (- pb)))))
           (Cx.cis pj))
  = ya * xb * cos (pb + pj - pa).
Proof.
  unfold Cx.mul, Cx.conj, Cx.of_real, Cx.cis, Cx.re, Cx.im. simpl.
  rewrite cos_minus, cos_plus, sin_plus, !cos_neg, !sin_neg. ring.
Qed.

(** The real part of a product of two sums and a factor is a double
    sum. *)
Lemma re_sum_conj_sum (n : nat) (f g : nat -> complex) (w : complex) :
  Cx.re (Cx.mul (Cx.mul (Cx.sum n f) (Cx.conj (Cx.sum n g))) w)
  = sumR n (fun a => sumR n (fun b =>
      Cx.re (Cx.mul (Cx.mul (f a) (Cx.conj (g b))) w))).
Proof.
  rewrite conj_sum, mul_sum_l, mul_sum_l, re_sum.
  apply sumR_ext. intros a _.
  rewrite mul_sum_r, mul_sum_l, re_sum. reflexivity.
Qed.

End ComplexAlgebra.

Section CrossCorrelation.
Local Open Scope R_scope.

Lemma map_seq_nth {A} (f : nat -> A) (n k : nat) (d : A) :
  (k < n)%nat -> nth k (map f (seq 0 n)) d = f k.
Proof.
  intros Hk. rewrite (nth_indep _ d (f 0%nat)) by
    now rewrite length_map, length_seq.
  rewrite map_nth, seq_nth by assumption. reflexivity.
Qed.

Lemma fit_length {A} (d : A) (n : nat) (l : list A) :
  length (fit d n l) = n.
Proof.
  unfold fit. rewrite length_firstn, length_app, repeat_length. lia.
Qed.

Lemma fit_exact {A} (d : A) (n : nat) (l : list A) :
  length l = n -> fit d n l = l.
Proof.
  intros <-. unfold fit.
  rewrite firstn_app, firstn_all, Nat.sub_diag. simpl.
  apply app_nil_r.
Qed.

Variable N : nat.
Hypothesis HN : (1 <= N)%nat.

Let INR_N_neq : INR N <> 0.
Proof. apply not_0_INR. lia. Qed.

(** The phase of bin [N - k] is that of bin [-k]. *)
Lemma phase_mirror (k j : nat) :
  (k <= N)%nat -> phase N (N - k) j = - phase N k j + 2 * INR j * PI.
Proof.
  intros Hk. unfold phase. rewrite minus_INR by assumption.
  field. exact INR_N_neq.
Qed.

(** Hermitian symmetry of the transform of real samples. *)
Lemma dft_mirror (u : list R) (k : nat) :
  (k <= N)%nat -> Cx.conj (dft N u (N - k)) = dft N u k.
Proof.
  intros Hk. unfold dft. rewrite conj_sum.
  apply sum_ext. intros j _.
  rewrite conj_real_cis, Ropp_involutive, phase_mirror by assumption.
  unfold Cx.cis. now rewrite cos_period, sin_period.
Qed.

Variables x y : list R.

(** The cross-spectrum [X1 * conj(X0)] of the source, one-sided. *)
Let R01 : list complex :=
  broadcast_row Cx.mul (rfft_row N y) (map Cx.conj (rfft_row N x)).

Let xp := fit 0 N x.
Let yp := fit 0 N y.

Lemma cross_spectrum_length : length R01 = (N / 2 + 1)%nat.
Proof.
  unfold R01. rewrite broadcast_row_same_length
    by now rewrite length_map, !rfft_row_length.
  rewrite zip_with_length, length_map, !rfft_row_length. lia.
Qed.

Lemma cross_spectrum_nth (k : nat) :
  (k <= N / 2)%nat ->
  nth k R01 Cx.zero = Cx.mul (dft N yp k) (Cx.conj (dft N xp k)).
Proof.
  intros Hk. unfold R01.
  rewrite broadcast_row_same_length
    by now rewrite length_map, !rfft_row_length.
  rewrite (zip_with_nth Cx.mul _ _ k Cx.zero Cx.zero Cx.zero)
    by (rewrite ?length_map, rfft_row_length; lia).
  unfold rfft_row.
  rewrite (nth_indep (map Cx.conj _) Cx.zero (Cx.conj Cx.zero))
    by (rewrite !length_map, length_seq; lia).
  rewrite map_nth, !map_seq_nth by lia. reflexivity.
Qed.

(** Every bin of the Hermitian extension is the product of the two full
    transforms. *)
Lemma hermitian_cross_spectrum (k : nat) :
  (k < N)%nat ->
  hermitian N (fit Cx.zero (N / 2 + 1) R01) k
  = Cx.mul (dft N yp k) (Cx.conj (dft N xp k)).
Proof.
  intros Hk. rewrite fit_exact by apply cross_spectrum_length.
  unfold hermitian.
  destruct (Nat.leb_spec k (N / 2)) as [Hle|Hgt].
  - now apply cross_spectrum_nth.
  - assert (Hdiv : (N <= 2 * (N / 2) + 1)%nat).
    { pose proof (Nat.div_mod_eq N 2).
      pose proof (Nat.mod_upper_bound N 2). lia. }
    rewrite cross_spectrum_nth by lia.
    rewrite conj_mul, conj_conj, dft_mirror by lia.
    rewrite <- (dft_mirror xp k) by lia.
    now rewrite conj_conj.
Qed.

(** The condition under which the roots of unity do not cancel. *)
Lemma lag_match (a b j : nat) :
  (a < N)%nat ->
  ((Z.of_nat b + Z.of_nat j - Z.of_nat a) mod Z.of_nat N =? 0)%Z
  = Nat.eqb a ((b + j) mod N).
Proof.
  intros Ha.
  destruct (Nat.eqb_spec a ((b + j) mod N)) as [E|E].
  - apply Z.eqb_eq. apply Z.cong_iff_0.
    rewrite E at 1. rewrite Nat2Z.inj_mod, Nat2Z.inj_add.
    now rewrite Z.mod_mod by lia.
  - apply Z.eqb_neq. intros H. apply E.
    apply Z.cong_iff_0 in H.
    apply Nat2Z.inj. rewrite Nat2Z.inj_mod, Nat2Z.inj_add, H.
    rewrite Z.mod_small; lia.
Qed.

(** Entry [j] of the inverse transform of the cross-spectrum. *)
Lemma inverse_of_cross_spectrum (j : nat) :
  Cx.re (Cx.sum N (fun k =>
           Cx.mul (hermitian N (fit Cx.zero (N / 2 + 1) R01) k)
             (Cx.cis (phase N k j))))
  / INR N
  = circular_xcorr N xp yp j.
Proof.
  rewrite re_sum.
  rewrite (sumR_ext N _
    (fun k => sumR N (fun a => sumR N (fun b =>
       nth a yp 0 * nth b xp 0
       * cos (INR k * (2 * PI * IZR (Z.of_nat b + Z.of_nat j - Z.of_nat a)
                       / INR N)))))).
  2: { intros k Hk. rewrite hermitian_cross_spectrum by assumption.
       unfold dft. rewrite re_sum_conj_sum.
       apply sumR_ext. intros a _. apply sumR_ext. intros b _.
       rewrite re_term. f_equal. f_equal.
       unfold phase. rewrite minus_IZR, plus_IZR, <- !INR_IZR_INZ.
       field. exact INR_N_neq. }
  rewrite sumR_swap.
  rewrite (sumR_ext N _
    (fun a => sumR N (fun b =>
       if Nat.eqb a ((b + j) mod N)
       then nth b xp 0 * nth ((b + j) mod N) yp 0 * INR N else 0))).
  2: { intros a Ha. rewrite sumR_swap.
       apply sumR_ext. intros b _.
       rewrite sumR_scal, cos_sum_roots by assumption.
       rewrite lag_match by assumption.
       destruct (Nat.eqb_spec a ((b + j) mod N)) as [->|_]; ring. }
  rewrite sumR_swap. unfold circular_xcorr.
  rewrite (sumR_ext N _
    (fun b => INR N * (nth b xp 0 * nth ((b + j) mod N) yp 0))).
  2: { intros b _. rewrite sumR_single.
       - ring.
       - apply Nat.mod_upper_bound. lia. }
  rewrite sumR_scal. field. exact INR_N_neq.
Qed.

(** The inverse transform of the cross-spectrum of [x] (reference) and
    [y] (replica), both fitted to [N] samples, is their circular
    cross-correlation. *)
Theorem irfft_of_cross_spectrum :
  irfft_row N R01 = map (circular_xcorr N xp yp) (seq 0 N).
Proof.
  unfold irfft_row. apply map_ext. intros j.
  apply inverse_of_cross_spectrum.
Qed.

End CrossCorrelation.

(** ** The unscaled, unweighted pipeline on single signals *)

(** With [weighting=None], a pair of rank-1 inputs goes through the
    spectral stages as the circular cross-correlation of the two
    DC-removed signals, which is then reordered and scaled. *)
Theorem gcc_is_time_domain_correlation (x0 x1 : list R)
  (max_delay : option Z) (scale : pystr) :
  py_in scale [None; biased; unbiased] = true ->
  let m := 2 * Z.of_nat (length x0) - 1 in
  let ncorr := match max_delay with
               | None => m
               | Some max_delay => Z.min m max_delay
               end in
  let nfft := 2 ^ next_power_of_two m in
  (1 <= Z.to_nat nfft)%nat ->
  let n := Z.to_nat nfft in
  let r := map (circular_xcorr n (fit 0%R n (center x0))
                  (fit 0%R n (center x1))) (seq 0 n) in
  TensorGCC.gcc (Vec x0) (Vec x1) max_delay None scale
  = bind (_shift (Vec r) nfft ncorr)
      (fun r01 => TensorGCC._scale (Vec (center x0)) r01 scale).
Proof.
  intros Hs m ncorr nfft Hn n r.
  unfold TensorGCC.gcc. rewrite Hs.
  change (py_in None [None; PHAT]) with true. cbn [negb assert_rank_in].
  cbn [rank existsb Nat.eqb orb negb last_dim].
  rewrite (remove_dc_ok (Vec x0)), (remove_dc_ok (Vec x1)) by exact I.
  cbn [bind remove_dc]. fold m. fold ncorr. fold nfft.
  unfold TensorGCC._gcc. rewrite !signal_rfft_vec.
  cbn [bind tmap broadcast2].
  rewrite length_map, !rfft_row_length, broadcast_dim_same.
  cbn [bind]. unfold _filter. change (pystr_eqb None PHAT) with false.
  cbv iota. rewrite signal_irfft_vec. cbn [bind]. unfold check_numerics.
  fold n. rewrite irfft_of_cross_spectrum by exact Hn.
  reflexivity.
Qed.

(** ** The concrete scenario (C2) *)

Section Scenario.
Local Open Scope R_scope.

Lemma center_scenario : center [1; 0; -1; 0] = [1; 0; -1; 0].
Proof.
  unfold center, mean. simpl.
  repeat (apply (f_equal2 (@cons R)); [lra|]). reflexivity.
Qed.

(** The circular autocorrelation of the signal, padded to [nfft = 8]. *)
Lemma xcorr_scenario :
  map (circular_xcorr 8 [1; 0; -1; 0; 0; 0; 0; 0]
         [1; 0; -1; 0; 0; 0; 0; 0]) (seq 0 8)
  = [2; 0; -1; 0; 0; 0; -1; 0].
Proof.
  cbn [map seq]. unfold circular_xcorr.
  repeat (apply (f_equal2 (@cons R)); [simpl; ring|]). reflexivity.
Qed.

(** The whole output: entries 1..6 of the inverse transform, then
    entries 0..6. *)
Lemma gcc_scenario :
  TensorGCC.gcc (Vec [1; 0; -1; 0]) (Vec [1; 0; -1; 0]) None None None
  = Ok (Vec [0; -1; 0; 0; 0; -1; 2; 0; -1; 0; 0; 0; -1]).
Proof.
  rewrite gcc_is_time_domain_correlation; [|reflexivity|vm_compute; lia].
  cbv zeta.
  change (length [1; 0; -1; 0]) with 4%nat.
  change (2 * Z.of_nat 4 - 1)%Z with 7%Z.
  change (2 ^ next_power_of_two 7)%Z with 8%Z.
  change (Z.to_nat 8) with 8%nat.
  rewrite center_scenario.
  change (fit 0 8 [1; 0; -1; 0]) with [1; 0; -1; 0; 0; 0; 0; 0].
  rewrite xcorr_scenario. reflexivity.
Qed.

(** The sequence the scenario expects: the linear autocorrelation of the
    signal at the lags [-3 .. 3], of length [2N - 1 = 7], whose value at
    lag 0 (index 3) is the sum of squares 2. *)
Lemma linear_scenario :
  map (linear_xcorr [1; 0; -1; 0] [1; 0; -1; 0]) [-3; -2; -1; 0; 1; 2; 3]%Z
  = [0; -1; 0; 2; 0; -1; 0].
Proof.
  cbn [map]. unfold linear_xcorr, sample.
  repeat (apply (f_equal2 (@cons R)); [simpl; ring|]). reflexivity.
Qed.

(** C2 (the code at the failing input).  For [x0 = x1 = [1, 0, -1, 0]]
    with no weighting, no scaling and no [max_delay], [gcc] returns 13
    values: entries 1..6 of the circular correlation followed by its
    entries 0..6, the first six values being the last six over again.
    The length is not 7 and the value at index 3 is 0, not the sum of
    squares 2.  The sequence of the claim is the linear autocorrelation
    at the lags [-3 .. 3]; the seven values around the zero lag of the
    output (index 6) are not that sequence either, the sample of lag -1
    being left out by the slice [x[N - ncorr : N - 1]]. *)
Theorem gcc_scenario_at_failing_input :
  exists out,
    TensorGCC.gcc (Vec [1; 0; -1; 0]) (Vec [1; 0; -1; 0]) None None None
    = Ok (Vec out) /\
    out = [0; -1; 0; 0; 0; -1; 2; 0; -1; 0; 0; 0; -1] /\
    length out = 13%nat /\ length out <> 7%nat /\
    nth 3 out 0 = 0 /\ nth 3 out 0 <> 2 /\
    firstn 6 out = skipn 7 out /\
    map (linear_xcorr [1; 0; -1; 0] [1; 0; -1; 0]) [-3; -2; -1; 0; 1; 2; 3]%Z
    = [0; -1; 0; 2; 0; -1; 0] /\
    firstn 7 (skipn 3 out) = [0; 0; -1; 2; 0; -1; 0].
Proof.
  eexists. split; [exact gcc_scenario|]. split; [reflexivity|]. simpl.
  repeat split; [discriminate | lra | exact linear_scenario].
Qed.

End Scenario.

(** * Further properties of the code *)

(** ** [next_power_of_two] *)

(** X1.  On an argument [0 < n < 2^53], [next_power_of_two] returns the
    least exponent whose power of two reaches [n]: [2^res >= n], and
    every [j >= 0] with [2^j >= n] is at least [res]. *)
Theorem next_power_of_two_least (n : Z) :
  0 < n < 2 ^ 53 ->
  let res := next_power_of_two n in
  0 <= res /\ n <= 2 ^ res /\
  forall j, 0 <= j -> n <= 2 ^ j -> res <= j.
Proof.
  intros H res.
  destruct (next_power_of_two_spec n H) as (Hnn & Hle & Hlt).
  fold res in Hnn, Hle, Hlt.
  split; [exact Hnn|]. split; [exact Hle|].
  intros j Hj Hnj.
  assert (Hpow : 2 ^ res < 2 ^ (j + 1)).
  { rewrite Z.pow_add_r by lia. lia. }
  apply Z.pow_lt_mono_r_iff in Hpow; lia.
Qed.

Lemma next_power_of_two_least_witness :
  let res := next_power_of_two 5 in
  0 <= res /\ 5 <= 2 ^ res /\
  forall j, 0 <= j -> 5 <= 2 ^ j -> res <= j.
Proof.
  apply (next_power_of_two_least 5). split; reflexivity.
Defined.

(** ** DC removal *)

Section Centering.
Local Open Scope R_scope.





End Centering.

(** ** Rank and shape errors of [gcc] *)

(** X3.  With supported options, [gcc] raises the rank assertion error
    when [x0] is not of rank 1 or 2, and also when [x0] is but [x1] is
    not; when both ranks pass and the inner dimension of [x0] is not
    statically known, it raises the static-dimension error.  All three are
    shape errors, raised before any arithmetic. *)
Theorem gcc_rank_and_static_dim_errors (x0 x1 : tensor R)
  (max_delay : option Z) (weighting scale : pystr) :
  py_in weighting [None; PHAT] = true ->
  py_in scale [None; biased; unbiased] = true ->
  (rank x0 <> 1%nat -> rank x0 <> 2%nat ->
   TensorGCC.gcc x0 x1 max_delay weighting scale = Raise RankAssertion)
  /\
  (rank x0 = 1%nat \/ rank x0 = 2%nat ->
   rank x1 <> 1%nat -> rank x1 <> 2%nat ->
   TensorGCC.gcc x0 x1 max_delay weighting scale = Raise RankAssertion)
  /\
  (rank x0 = 1%nat \/ rank x0 = 2%nat ->
   rank x1 = 1%nat \/ rank x1 = 2%nat ->
   last_dim x0 = None ->
   TensorGCC.gcc x0 x1 max_delay weighting scale
   = Raise ValueError_static_dim)
  /\
  classify RankAssertion = ShapeError /\
  classify ValueError_static_dim = ShapeError.
Proof.
  intros Hw Hs.
  assert (Hin : forall x : tensor R,
             rank x = 1%nat \/ rank x = 2%nat ->
             assert_rank_in x [1; 2]%nat = true).
  { intros x [E|E]; unfold assert_rank_in; rewrite E; reflexivity. }
  assert (Hout : forall x : tensor R,
             rank x <> 1%nat -> rank x <> 2%nat ->
             assert_rank_in x [1; 2]%nat = false).
  { intros x H1 H2. unfold assert_rank_in. simpl.
    destruct (Nat.eqb_spec (rank x) 1); [contradiction|].
    destruct (Nat.eqb_spec (rank x) 2); [contradiction|]. reflexivity. }
  unfold TensorGCC.gcc. rewrite Hw, Hs. cbn [negb].
  repeat split.
  - intros H1 H2. now rewrite Hout.
  - intros H0 H1 H2. now rewrite Hin, Hout.
  - intros H0 H1 Hl. now rewrite !Hin, Hl.
Qed.

Lemma gcc_rank_and_static_dim_errors_witness :
  TensorGCC.gcc (Other 3) (Vec [1; 2]%R) None None None
  = Raise RankAssertion /\
  TensorGCC.gcc (Vec [1; 2]%R) (Other 0) None PHAT biased
  = Raise RankAssertion /\
  TensorGCC.gcc (Other 2) (Vec [1; 2]%R) (Some 3) None unbiased
  = Raise ValueError_static_dim.
Proof.
  split; [|split].
  - destruct (gcc_rank_and_static_dim_errors (Other 3) (Vec [1; 2]%R) None
                None None eq_refl eq_refl) as (H & _).
    apply H; simpl; lia.
  - destruct (gcc_rank_and_static_dim_errors (Vec [1; 2]%R) (Other 0) None
                PHAT biased eq_refl eq_refl) as (_ & H & _).
    apply H; [left; reflexivity | |]; simpl; lia.
  - destruct (gcc_rank_and_static_dim_errors (Other 2) (Vec [1; 2]%R)
                (Some 3) None unbiased eq_refl eq_refl) as (_ & _ & H & _).
    apply H; [right; reflexivity | left; reflexivity | reflexivity].
Defined.

(** ** The lag reordering [_shift] *)

Lemma slice_inside {A} (a b : Z) (l : list A) :
  0 <= a <= Z.of_nat (length l) -> 0 <= b <= Z.of_nat (length l) ->
  slice a b l = firstn (Z.to_nat (b - a)) (skipn (Z.to_nat a) l).
Proof.
  intros Ha Hb. unfold slice, slice_bound.
  destruct (Z.ltb_spec a 0); [lia|]. destruct (Z.ltb_spec b 0); [lia|].
  now rewrite !Z.min_l by lia.
Qed.

(** The entries of a reordered row. *)
Lemma shift_row_entries (r : list R) (N ncorr : Z) :
  Z.of_nat (length r) = N -> 1 <= ncorr < N ->
  exists out,
    _shift (Vec r) N ncorr = Ok (Vec out) /\
    length out = Z.to_nat (2 * ncorr - 1) /\
    (forall i, (i < Z.to_nat (ncorr - 1))%nat ->
       nth i out 0%R = nth (Z.to_nat (N - ncorr) + i) r 0%R) /\
    (forall j, (j < Z.to_nat ncorr)%nat ->
       nth (Z.to_nat (ncorr - 1) + j) out 0%R = nth j r 0%R) /\
    nth (Z.to_nat (ncorr - 1)) out 0%R = nth 0 r 0%R.
Proof.
  intros Hlen Hn. unfold _shift.
  destruct (Z.ltb_spec ncorr N); [|lia]. cbn [negb slice_last concat_last].
  rewrite !slice_inside by lia.
  replace (N - 1 - (N - ncorr)) with (ncorr - 1) by lia.
  rewrite Z.sub_0_r. change (Z.to_nat 0) with 0%nat. cbn [skipn].
  eexists. split; [reflexivity|].
  assert (Hright : length (firstn (Z.to_nat (ncorr - 1))
                             (skipn (Z.to_nat (N - ncorr)) r))
                   = Z.to_nat (ncorr - 1)).
  { rewrite length_firstn, length_skipn. lia. }
  assert (Hentry : forall j, (j < Z.to_nat ncorr)%nat ->
            nth (Z.to_nat (ncorr - 1) + j)
              (firstn (Z.to_nat (ncorr - 1))
                 (skipn (Z.to_nat (N - ncorr)) r) ++
               firstn (Z.to_nat ncorr) r) 0%R = nth j r 0%R).
  { intros j Hj. rewrite app_nth2 by lia. rewrite Hright.
    replace (Z.to_nat (ncorr - 1) + j - Z.to_nat (ncorr - 1))%nat with j
      by lia.
    rewrite nth_firstn.
    destruct (Nat.ltb_spec j (Z.to_nat ncorr)); [reflexivity | lia]. }
  repeat split.
  - rewrite length_app, Hright, length_firstn. lia.
  - intros i Hi. rewrite app_nth1 by lia.
    rewrite nth_firstn.
    destruct (Nat.ltb_spec i (Z.to_nat (ncorr - 1))); [|lia].
    apply nth_skipn.
  - exact Hentry.
  - rewrite <- (Hentry 0%nat) by lia. f_equal. lia.
Qed.

(** X4.  On a row [r] of [N] samples and with [1 <= ncorr < N], [_shift]
    succeeds with [2 ncorr - 1] entries: entry [i < ncorr - 1] is
    [r[N - ncorr + i]] and entry [ncorr - 1 + j], [j < ncorr], is [r[j]].
    So the entries taken from the tail are [r[N - ncorr] .. r[N - 2]]:
    the last sample [r[N - 1]] is never among them, and [r[0]] sits at
    index [ncorr - 1]. *)
Theorem shift_entries (r : list R) (N ncorr : Z) :
  Z.of_nat (length r) = N -> 1 <= ncorr < N ->
  exists out,
    _shift (Vec r) N ncorr = Ok (Vec out) /\
    length out = Z.to_nat (2 * ncorr - 1) /\
    (forall i, (i < Z.to_nat (ncorr - 1))%nat ->
       nth i out 0%R = nth (Z.to_nat (N - ncorr) + i) r 0%R) /\
    (forall j, (j < Z.to_nat ncorr)%nat ->
       nth (Z.to_nat (ncorr - 1) + j) out 0%R = nth j r 0%R) /\
    nth (Z.to_nat (ncorr - 1)) out 0%R = nth 0 r 0%R.
Proof. exact (shift_row_entries r N ncorr). Qed.

Lemma shift_entries_witness :
  exists out,
    _shift (Vec [10; 11; 12; 13; 14; 15; 16; 17]%R) 8 3 = Ok (Vec out) /\
    length out = 5%nat /\
    nth 0 out 0%R = 15%R /\ nth 1 out 0%R = 16%R /\ nth 2 out 0%R = 10%R.
Proof.
  destruct (shift_entries [10; 11; 12; 13; 14; 15; 16; 17]%R 8 3
              eq_refl ltac:(lia)) as (out & Hout & Hlen & Hneg & Hpos & H0).
  exists out. split; [exact Hout|]. split; [exact Hlen|].
  split; [exact (Hneg 0%nat ltac:(simpl; lia))|].
  split; [exact (Hneg 1%nat ltac:(simpl; lia)) | exact H0].
Defined.

(** X5.  [_shift] raises the assertion error exactly when [ncorr >= N],
    whatever the tensor.  A non-positive [ncorr] passes the assertion and
    nothing is taken from the tail: on a row of [N] samples the result is
    empty for [ncorr = 0] and, for [ncorr < 0], the row without its last
    [- ncorr] samples (Python's [x[:ncorr]]). *)
Theorem shift_assertion_and_nonpositive_ncorr (x : tensor R) (r : list R)
  (N ncorr : Z) :
  (N <= ncorr -> _shift x N ncorr = Raise AssertionError) /\
  (ncorr < N -> _shift x N ncorr <> Raise AssertionError) /\
  (Z.of_nat (length r) = N -> 1 <= N -> ncorr <= 0 ->
   _shift (Vec r) N ncorr
   = Ok (Vec (if ncorr =? 0 then []
              else firstn (Z.to_nat (N + ncorr)) r))).
Proof.
  split; [|split].
  - intros H. unfold _shift. destruct (Z.ltb_spec ncorr N); [lia|].
    reflexivity.
  - intros H. unfold _shift. destruct (Z.ltb_spec ncorr N); [|lia].
    cbn [negb]. destruct x as [v | c rows | k]; simpl; try discriminate.
    rewrite !length_map, Nat.eqb_refl. discriminate.
  - intros Hlen HN Hn. unfold _shift.
    destruct (Z.ltb_spec ncorr N); [|lia]. cbn [negb slice_last concat_last].
    assert (Hright : slice (N - ncorr) (N - 1) r = []).
    { unfold slice, slice_bound. rewrite Hlen.
      destruct (Z.ltb_spec (N - ncorr) 0); [lia|].
      destruct (Z.ltb_spec (N - 1) 0); [lia|].
      replace (Z.to_nat (Z.min (N - 1) N - Z.min (N - ncorr) N)) with 0%nat
        by lia.
      reflexivity. }
    rewrite Hright. cbn [app]. do 2 f_equal.
    unfold slice, slice_bound. rewrite Hlen.
    change (0 <? 0) with false. cbv iota.
    rewrite Z.min_l by lia. cbn [Z.to_nat skipn].
    destruct (Z.eqb_spec ncorr 0) as [->|Hne].
    + change (0 <? 0) with false. cbv iota.
      rewrite ?Z.min_l by lia. reflexivity.
    + destruct (Z.ltb_spec ncorr 0); [|lia].
      rewrite ?(Z.min_l 0 N) by lia. change (Z.to_nat 0) with 0%nat.
      cbn [skipn]. f_equal. lia.
Qed.

Lemma shift_assertion_and_nonpositive_ncorr_witness :
  _shift (Vec [10; 11; 12; 13]%R) 4 4 = Raise AssertionError /\
  _shift (Vec [10; 11; 12; 13]%R) 4 3 <> Raise AssertionError /\
  _shift (Vec [10; 11; 12; 13]%R) 4 (-1) = Ok (Vec [10; 11; 12]%R).
Proof.
  destruct (shift_assertion_and_nonpositive_ncorr (Vec [10; 11; 12; 13]%R)
              [10; 11; 12; 13]%R 4 4) as (H1 & _).
  destruct (shift_assertion_and_nonpositive_ncorr (Vec [10; 11; 12; 13]%R)
              [10; 11; 12; 13]%R 4 3) as (_ & H2 & _).
  destruct (shift_assertion_and_nonpositive_ncorr (Vec [10; 11; 12; 13]%R)
              [10; 11; 12; 13]%R 4 (-1)) as (_ & _ & H3).
  split; [apply H1; lia|]. split; [apply H2; lia|].
  apply H3; [reflexivity | lia | lia].
Defined.

(** ** Unbiased scaling inside the pipeline *)

(** Up to the scaling stage the pipeline does not look at [scale]:
    either a transform refuses its input (an empty batch), or the
    pipeline hands [_scale] a reordered correlation of odd trailing
    length [2 ncorr - 1]. *)
Lemma gcc_reduces_to_scale (x0 x1 : tensor R) (b0 b1 : option nat)
  (N n1 : nat) (max_delay : option Z) (weighting : pystr) :
  has_shape x0 b0 N -> has_shape x1 b1 n1 -> batch_compatible b1 b0 ->
  py_in weighting [None; PHAT] = true ->
  (2 <= N)%nat -> 2 * Z.of_nat N - 1 < 2 ^ 53 ->
  let m := 2 * Z.of_nat N - 1 in
  let ncorr := match max_delay with
               | None => m
               | Some max_delay => Z.min m max_delay
               end in
  1 <= ncorr ->
  (forall scale, py_in scale [None; biased; unbiased] = true ->
     TensorGCC.gcc x0 x1 max_delay weighting scale
     = Raise InvalidArgument_fft)
  \/
  exists r01 b,
    has_shape r01 b (Z.to_nat (2 * ncorr - 1)) /\
    forall scale, py_in scale [None; biased; unbiased] = true ->
      TensorGCC.gcc x0 x1 max_delay weighting scale
      = TensorGCC._scale (remove_dc x0) r01 scale.
Proof.
  intros H0 H1 Hb Hw HN Hrep m ncorr Hncorr.
  pose proof (ncorr_bounds N max_delay HN Hrep) as Hbounds.
  cbv zeta in Hbounds. fold m in Hbounds. fold ncorr in Hbounds.
  set (nfft := 2 ^ next_power_of_two m) in *.
  assert (Hgcc : forall scale, py_in scale [None; biased; unbiased] = true ->
            TensorGCC.gcc x0 x1 max_delay weighting scale
            = TensorGCC._gcc (remove_dc x0) (remove_dc x1) nfft ncorr
                weighting scale).
  { intros scale Hs.
    unfold TensorGCC.gcc. rewrite Hw, Hs. cbn [negb].
    rewrite (assert_rank_in_signal _ _ _ H0),
      (assert_rank_in_signal _ _ _ H1).
    cbn [negb].
    assert (Hl0 : last_dim x0 = Some N) by apply H0. rewrite Hl0.
    rewrite (remove_dc_ok x0) by exact (has_shape_signal _ _ _ H0).
    rewrite (remove_dc_ok x1) by exact (has_shape_signal _ _ _ H1).
    reflexivity. }
  pose proof (remove_dc_shape _ _ _ H0) as H0'.
  pose proof (remove_dc_shape _ _ _ H1) as H1'.
  destruct (signal_rfft_cases (remove_dc x0) nfft) as [E0|E0].
  2: { left. intros scale Hs. rewrite (Hgcc scale Hs).
       unfold TensorGCC._gcc. now rewrite E0. }
  destruct (signal_rfft_cases (remove_dc x1) nfft) as [E1|E1].
  2: { left. intros scale Hs. rewrite (Hgcc scale Hs).
       unfold TensorGCC._gcc. now rewrite E0, E1. }
  right.
  pose proof (tmap_shape Cx.conj _ _ _ (rfft_shape _ nfft _ _ H0')) as HX0.
  pose proof (rfft_shape _ nfft _ _ H1') as HX1.
  destruct (broadcast2_shape Cx.mul _ _ _ _ _ HX1 HX0 Hb)
    as (R01 & bR & HR01 & HR).
  pose proof (filter_shape _ weighting _ _ HR) as HF.
  pose proof (irfft_shape _ nfft _ _ HF) as Hr.
  destruct (shift_shape _ nfft ncorr _ Hr ltac:(lia)) as (y & Hy & Hys).
  exists y, bR. split; [exact Hys|].
  intros scale Hs. rewrite (Hgcc scale Hs).
  unfold TensorGCC._gcc. rewrite E0, E1. cbn [bind]. rewrite HR01.
  cbn [bind]. rewrite signal_irfft_ok by apply HF. cbn [bind].
  unfold check_numerics. rewrite Hy. reflexivity.
Qed.

Lemma spec_den_odd (m : Z) (k : nat) :
  spec_den m (2 * k + 1) = overlap_den m (Z.of_nat k).
Proof.
  unfold spec_den.
  replace ((Z.of_nat (2 * k + 1) - 1) / 2) with (Z.of_nat k).
  2: { replace (Z.of_nat (2 * k + 1) - 1) with (Z.of_nat k * 2) by lia.
       now rewrite Z.div_mul by lia. }
  rewrite overlap_den_eq, length_map, arange_length.
  replace (2 * k + 1 - Z.to_nat (Z.of_nat k + 1 - - Z.of_nat k))%nat
    with 0%nat by lia.
  apply app_nil_r.
Qed.

(** X6.  Inside [gcc] the correlation handed to [_scale] always has the
    odd length [2 ncorr - 1], so the unbiased branch never pads: for
    [N >= 2] samples and [ncorr >= 1], [gcc(..., scale="unbiased")] is
    [gcc(..., scale=None)] with entry [i] of every row divided by
    [max(1, N - |i - (ncorr - 1)|)], a denominator array that is symmetric
    about the zero-lag index [ncorr - 1]. *)
Theorem gcc_unbiased_is_unscaled_over_overlap (x0 x1 : tensor R)
  (b0 b1 : option nat) (N n1 : nat) (max_delay : option Z)
  (weighting : pystr) :
  has_shape x0 b0 N -> has_shape x1 b1 n1 -> batch_compatible b1 b0 ->
  py_in weighting [None; PHAT] = true ->
  (2 <= N)%nat -> 2 * Z.of_nat N - 1 < 2 ^ 53 ->
  let m := 2 * Z.of_nat N - 1 in
  let ncorr := match max_delay with
               | None => m
               | Some max_delay => Z.min m max_delay
               end in
  1 <= ncorr ->
  let den := overlap_den (Z.of_nat N) (ncorr - 1) in
  TensorGCC.gcc x0 x1 max_delay weighting unbiased
  = rmap (divide_rows den)
      (TensorGCC.gcc x0 x1 max_delay weighting None)
  /\ length den = Z.to_nat (2 * ncorr - 1)
  /\ (forall k, 0 <= k <= ncorr - 1 ->
        nth (Z.to_nat (ncorr - 1 - k)) den 0
        = Z.max 1 (Z.of_nat N - k) /\
        nth (Z.to_nat (ncorr - 1 + k)) den 0
        = Z.max 1 (Z.of_nat N - k)).
Proof.
  intros H0 H1 Hb Hw HN Hrep m ncorr Hncorr den.
  assert (Hspec : spec_den (Z.of_nat N) (Z.to_nat (2 * ncorr - 1)) = den).
  { replace (Z.to_nat (2 * ncorr - 1))
      with (2 * Z.to_nat (ncorr - 1) + 1)%nat by lia.
    rewrite spec_den_odd. unfold den. f_equal. lia. }
  split; [|split].
  - destruct (gcc_reduces_to_scale x0 x1 b0 b1 N n1 max_delay weighting
                H0 H1 Hb Hw HN Hrep Hncorr)
      as [Hraise | (r01 & b & Hr & Hgcc)];
      [now rewrite !Hraise by reflexivity|].
    fold m in Hr. fold ncorr in Hr.
    rewrite !Hgcc by reflexivity.
    rewrite (TensorGCCFacts.scale_unbiased_eq (remove_dc x0) r01 b
               (Z.to_nat (2 * ncorr - 1)) N Hr).
    + rewrite Hspec. unfold TensorGCC._scale.
      rewrite remove_dc_last_dim.
      assert (Hl0 : last_dim x0 = Some N) by apply H0. rewrite Hl0.
      reflexivity.
    + rewrite remove_dc_last_dim. apply H0.
    + lia.
  - unfold den. rewrite overlap_den_length by lia. f_equal. lia.
  - intros k Hk. unfold den. rewrite overlap_den_eq.
    assert (Hnth : forall i, (i < Z.to_nat (2 * ncorr - 1))%nat ->
              nth i (map (lag_den (Z.of_nat N))
                       (arange (- (ncorr - 1)) (ncorr - 1 + 1))) 0
              = lag_den (Z.of_nat N) (Z.of_nat i - (ncorr - 1))).
    { intros i Hi.
      rewrite (nth_indep _ 0 (lag_den (Z.of_nat N) 0))
        by (rewrite length_map, arange_length; lia).
      rewrite map_nth, arange_nth by lia. f_equal. lia. }
    rewrite !Hnth by lia. unfold lag_den. split; f_equal; f_equal; lia.
Qed.

Lemma gcc_unbiased_is_unscaled_over_overlap_witness :
  TensorGCC.gcc (Vec [1; 0; -1; 0]%R) (Vec [0; 1; 0; -1]%R) (Some 3) PHAT
    unbiased
  = rmap (divide_rows (overlap_den 4 2))
      (TensorGCC.gcc (Vec [1; 0; -1; 0]%R) (Vec [0; 1; 0; -1]%R) (Some 3)
         PHAT None)
  /\ overlap_den 4 2 = [2; 3; 4; 3; 2].
Proof.
  split; [|reflexivity].
  apply (gcc_unbiased_is_unscaled_over_overlap (Vec [1; 0; -1; 0]%R)
           (Vec [0; 1; 0; -1]%R) None None 4 4 (Some 3) PHAT);
    try exact I; try lia; try reflexivity;
    unfold has_shape; simpl; auto.
Defined.

(** ** Phase transform weighting *)

Section Phat.
Local Open Scope R_scope.

Lemma sqrt_one_plus_ratio (x y : R) :
  0 < x -> sqrt (1 + (y / x)²) = sqrt (x * x + y * y) / x.
Proof.
  intros Hx.
  assert (Hr : 0 < x * x + y * y) by nra.
  replace (1 + (y / x)²) with ((x * x + y * y) / (x * x))
    by (unfold Rsqr; field; lra).
  rewrite sqrt_div_alt by nra.
  now rewrite sqrt_square by lra.
Qed.

Lemma cis_atan_pos (x y : R) :
  0 < x ->
  cos (atan (y / x)) = x / sqrt (x * x + y * y) /\
  sin (atan (y / x)) = y / sqrt (x * x + y * y).
Proof.
  intros Hx.
  assert (Hs : 0 < sqrt (x * x + y * y)) by (apply sqrt_lt_R0; nra).
  rewrite cos_atan, sin_atan, sqrt_one_plus_ratio by assumption.
  split; field; lra.
Qed.

Lemma cis_atan_neg (x y : R) :
  x < 0 ->
  cos (atan (y / x)) = - x / sqrt (x * x + y * y) /\
  sin (atan (y / x)) = - y / sqrt (x * x + y * y).
Proof.
  intros Hx.
  replace (y / x) with ((- y) / (- x)) by (field; lra).
  destruct (cis_atan_pos (- x) (- y) ltac:(lra)) as [Hc Hs].
  replace (- x * - x + - y * - y) with (x * x + y * y) in Hc, Hs by ring.
  split; assumption.
Qed.

(** The phase transform of one bin: [exp(i angle(z))] is [z] scaled to
    magnitude 1. *)
Lemma exp_angle_unit (z : complex) :
  Cx.exp (0, Cx.angle z) = unit_phasor z.
Proof.
  destruct z as [x y].
  unfold Cx.exp, Cx.angle, Cx.atan2, unit_phasor, norm2, Cx.re, Cx.im.
  cbn [fst snd]. rewrite exp_0, !Rmult_1_l.
  destruct (Req_dec_T (x * x + y * y) 0) as [Hz|Hnz].
  - assert (x = 0 /\ y = 0) as [-> ->] by (split; nra).
    destruct (Rlt_dec 0 0); [lra|]. now rewrite cos_0, sin_0.
  - destruct (Rlt_dec 0 x) as [Hx|Hx].
    { destruct (cis_atan_pos x y Hx) as [-> ->]. reflexivity. }
    destruct (Rlt_dec x 0) as [Hx'|Hx'].
    { destruct (cis_atan_neg x y Hx') as [Hc Hs].
      destruct (Rle_dec 0 y).
      - rewrite neg_cos, neg_sin, Hc, Hs. f_equal; field;
          apply Rgt_not_eq, sqrt_lt_R0; nra.
      - replace (atan (y / x) - PI) with (- (PI - atan (y / x))) by ring.
        rewrite cos_neg, sin_neg.
        replace (PI - atan (y / x)) with (- atan (y / x) + PI) by ring.
        rewrite neg_cos, neg_sin, cos_neg, sin_neg, Hc, Hs.
        f_equal; field; apply Rgt_not_eq, sqrt_lt_R0; nra. }
    assert (x = 0) by lra. subst x.
    replace (0 * 0 + y * y) with (y * y) by ring.
    destruct (Rlt_dec 0 y) as [Hy|Hy].
    { rewrite cos_PI2, sin_PI2, sqrt_square by lra.
      f_equal; field; lra. }
    destruct (Rlt_dec y 0) as [Hy'|Hy'].
    { rewrite cos_neg, sin_neg, cos_PI2, sin_PI2.
      replace (y * y) with (- y * - y) by ring.
      rewrite sqrt_square by lra. f_equal; field; lra. }
    exfalso. apply Hnz. assert (y = 0) by lra. subst y. ring.
Qed.

Lemma unit_phasor_norm (z : complex) : norm2 (unit_phasor z) = 1.
Proof.
  unfold unit_phasor.
  destruct (Req_dec_T (norm2 z) 0) as [Hz|Hnz].
  - unfold norm2. simpl. ring.
  - assert (Hpos : 0 < norm2 z).
    { unfold norm2 in *. nra. }
    pose proof (sqrt_lt_R0 _ Hpos) as Hs.
    pose proof (sqrt_def (norm2 z) (Rlt_le _ _ Hpos)) as Hd.
    unfold norm2 at 1. cbn [Cx.re Cx.im fst snd].
    replace (Cx.re z / sqrt (norm2 z) * (Cx.re z / sqrt (norm2 z)) +
             Cx.im z / sqrt (norm2 z) * (Cx.im z / sqrt (norm2 z)))
      with (norm2 z / (sqrt (norm2 z) * sqrt (norm2 z)))
      by (unfold norm2 at 1; field; lra).
    rewrite Hd. field. lra.
Qed.

(** X7.  With [weighting="PHAT"], [_filter] works bin by bin: every bin
    of the result has magnitude 1, and a bin [z] other than zero becomes
    [z / |z|], so that it keeps its direction, [|z|] times the result
    being [z].  (Nothing more is said of a zero bin.)  Any other value of
    [weighting] leaves the cross-spectrum unchanged. *)
Theorem filter_phat_normalises (R01 : tensor complex) (weighting : pystr) :
  (exists f : complex -> complex,
     _filter R01 PHAT = tmap f R01 /\
     (forall z, norm2 (f z) = 1) /\
     (forall z, norm2 z <> 0 ->
        f z = (Cx.re z / sqrt (norm2 z), Cx.im z / sqrt (norm2 z)) /\
        Cx.mul (Cx.of_real (sqrt (norm2 z))) (f z) = z)) /\
  (weighting <> PHAT -> _filter R01 weighting = R01).
Proof.
  split.
  - exists (fun z => Cx.exp (0, Cx.angle z)). split; [|split].
    + unfold _filter. change (pystr_eqb PHAT PHAT) with true. reflexivity.
    + intros z. rewrite exp_angle_unit. apply unit_phasor_norm.
    + intros [x y] Hnz. rewrite exp_angle_unit. unfold unit_phasor.
      destruct (Req_dec_T (norm2 (x, y)) 0) as [Hz|_]; [contradiction|].
      split; [reflexivity|].
      assert (Hpos : 0 < norm2 (x, y)).
      { unfold norm2 in *. simpl in *. nra. }
      pose proof (sqrt_lt_R0 _ Hpos) as Hs.
      unfold Cx.mul, Cx.of_real, Cx.re, Cx.im. cbn [fst snd].
      f_equal; field; lra.
  - intros Hne. unfold _filter.
    destruct (pystr_eqb weighting PHAT) eqn:E; [|reflexivity].
    exfalso. apply Hne. destruct weighting as [s|]; [|discriminate].
    simpl in E. apply String.eqb_eq in E. now subst.
Qed.

Lemma filter_phat_normalises_witness :
  norm2 (3, 4)%R <> 0%R /\
  (exists out,
     _filter (Vec [(3, 4)%R]) PHAT = Vec [out] /\
     Cx.mul (Cx.of_real (sqrt (norm2 (3, 4)%R))) out = (3, 4)%R) /\
  _filter (Vec [(3, 4)%R]) None = Vec [(3, 4)%R].
Proof.
  assert (Hnz : norm2 (3, 4)%R <> 0%R) by (unfold norm2; simpl; lra).
  destruct (filter_phat_normalises (Vec [(3, 4)%R]) None)
    as ((f & Hf & _ & Hdir) & Hid).
  split; [exact Hnz|]. split.
  - exists (f (3, 4)%R). split; [exact Hf|].
    exact (proj2 (Hdir (3, 4)%R Hnz)).
  - apply Hid. discriminate.
Defined.

End Phat.

(** ** From the circular to the linear cross-correlation *)

Section NoAliasing.
Local Open Scope R_scope.

Lemma fit_nth (n : nat) (x : list R) (b : nat) :
  (length x <= n)%nat -> nth b (fit 0 n x) 0 = nth b x 0.
Proof.
  intros Hlen. unfold fit.
  destruct (Nat.lt_ge_cases b n) as [Hb|Hb].
  - rewrite nth_firstn.
    destruct (Nat.ltb_spec b n); [|lia].
    destruct (Nat.lt_ge_cases b (length x)) as [Hx|Hx].
    + now rewrite app_nth1.
    + rewrite app_nth2, nth_repeat by assumption.
      now rewrite nth_overflow.
  - rewrite !nth_overflow; [reflexivity | lia |].
    rewrite length_firstn, length_app, repeat_length. lia.
Qed.

(** A sum whose terms vanish from [N] on. *)
Lemma sumR_truncate (N n : nat) (f : nat -> R) :
  (N <= n)%nat -> (forall b, (N <= b < n)%nat -> f b = 0) ->
  sumR n f = sumR N f.
Proof.
  intros Hle Hz. induction n as [|n IH].
  - now replace N with 0%nat by lia.
  - destruct (Nat.eq_dec N (S n)) as [->|Hne]; [reflexivity|].
    simpl. rewrite IH by (try lia; intros; apply Hz; lia).
    rewrite Hz by lia. ring.
Qed.

Variables (x y : list R) (n : nat).
Hypothesis Hx : (length x + length y <= n + 1)%nat.
Hypothesis Hx1 : (1 <= length x)%nat.
Hypothesis Hy1 : (1 <= length y)%nat.

(** Entry [j] of the circular correlation, for a lag that cannot wrap. *)
Lemma circular_nonnegative_lag (j : nat) :
  (j + length x <= n)%nat ->
  circular_xcorr n (fit 0 n x) (fit 0 n y) j
  = linear_xcorr x y (Z.of_nat j).
Proof.
  intros Hj. unfold circular_xcorr, linear_xcorr.
  rewrite (sumR_truncate (length x) n).
  - apply sumR_ext. intros b Hb.
    rewrite !fit_nth by lia. f_equal.
    rewrite Nat.mod_small by lia.
    unfold sample. destruct (Z.ltb_spec (Z.of_nat b + Z.of_nat j) 0); [lia|].
    f_equal. lia.
  - lia.
  - intros b Hb. rewrite fit_nth by lia.
    rewrite (nth_overflow x) by lia. ring.
Qed.

(** Entry [n - j] of the circular correlation is lag [- j]. *)
Lemma circular_negative_lag (j : nat) :
  (1 <= j)%nat -> (j + length y <= n)%nat ->
  circular_xcorr n (fit 0 n x) (fit 0 n y) (n - j)
  = linear_xcorr x y (- Z.of_nat j).
Proof.
  intros Hj1 Hj. unfold circular_xcorr, linear_xcorr.
  rewrite (sumR_truncate (length x) n).
  - apply sumR_ext. intros b Hb.
    rewrite !fit_nth by lia. f_equal. unfold sample.
    destruct (Z.ltb_spec (Z.of_nat b + - Z.of_nat j) 0) as [Hneg|Hpos].
    + rewrite Nat.mod_small by lia. apply nth_overflow. lia.
    + replace (b + (n - j))%nat with ((b - j) + 1 * n)%nat by lia.
      rewrite Nat.Div0.mod_add, Nat.mod_small by lia.
      f_equal. lia.
  - lia.
  - intros b Hb. rewrite fit_nth by lia.
    rewrite (nth_overflow x) by lia. ring.
Qed.

End NoAliasing.

(** ** What the output entries are *)

(** X8.  For rank-1 inputs and any weighting other than ["PHAT"], the
    stages of [_gcc] up to the inverse transform compute the circular
    cross-correlation of [x0] (reference) and [x1], both fitted to [nfft]
    samples: entry [j] is the sum over [b] of
    [x0[b] * x1[(b + j) mod nfft]].  [_gcc] is the reordering and scaling
    of that sequence. *)
Theorem gcc_stage_is_circular_correlation (x0 x1 : list R) (nfft ncorr : Z)
  (weighting scale : pystr) :
  (1 <= Z.to_nat nfft)%nat -> weighting <> PHAT ->
  let n := Z.to_nat nfft in
  let r := map (circular_xcorr n (fit 0%R n x0) (fit 0%R n x1)) (seq 0 n) in
  TensorGCC._gcc (Vec x0) (Vec x1) nfft ncorr weighting scale
  = bind (_shift (Vec r) nfft ncorr)
      (fun r01 => TensorGCC._scale (Vec x0) r01 scale).
Proof.
  intros Hn Hw n r.
  unfold TensorGCC._gcc. rewrite !signal_rfft_vec.
  cbn [bind tmap broadcast2].
  rewrite length_map, !rfft_row_length, broadcast_dim_same.
  cbn [bind]. unfold _filter.
  assert (E : pystr_eqb weighting PHAT = false).
  { destruct (pystr_eqb weighting PHAT) eqn:E; [|reflexivity].
    exfalso. apply Hw. destruct weighting as [s|]; [|discriminate].
    simpl in E. apply String.eqb_eq in E. now subst. }
  rewrite E. cbv iota. rewrite signal_irfft_vec. cbn [bind].
  unfold check_numerics.
  fold n. rewrite irfft_of_cross_spectrum by exact Hn.
  reflexivity.
Qed.

Lemma gcc_stage_is_circular_correlation_witness :
  TensorGCC._gcc (Vec [1; -1]%R) (Vec [-1; 1]%R) 4 2 None None
  = bind (_shift
            (Vec (map (circular_xcorr 4 (fit 0%R 4 [1; -1]%R)
                         (fit 0%R 4 [-1; 1]%R)) (seq 0 4))) 4 2)
      (fun r01 => TensorGCC._scale (Vec [1; -1]%R) r01 None).
Proof.
  apply (gcc_stage_is_circular_correlation [1; -1]%R [-1; 1]%R 4 2 None
           None); [simpl; lia | discriminate].
Defined.

(** X9.  For rank-1 inputs of [N >= 2] samples each, no weighting, no
    scaling and [1 <= max_delay <= N], the [2 max_delay - 1] output
    entries are linear cross-correlations of the DC-removed signals:
    entry [max_delay - 1 + j] is lag [j], for [0 <= j < max_delay], and
    entry [i < max_delay - 1] is lag [i - max_delay].  The lags of the
    output are thus [- max_delay, ..., -2, 0, 1, ..., max_delay - 1]:
    lag [-1] is not in it. *)
Theorem gcc_output_lags (x0 x1 : list R) (N : nat) (max_delay : Z) :
  length x0 = N -> length x1 = N ->
  (2 <= N)%nat -> 2 * Z.of_nat N - 1 < 2 ^ 53 ->
  1 <= max_delay <= Z.of_nat N ->
  exists out,
    TensorGCC.gcc (Vec x0) (Vec x1) (Some max_delay) None None
    = Ok (Vec out) /\
    length out = Z.to_nat (2 * max_delay - 1) /\
    (forall i, (i < Z.to_nat (max_delay - 1))%nat ->
       nth i out 0%R
       = linear_xcorr (center x0) (center x1) (Z.of_nat i - max_delay)) /\
    (forall j, (j < Z.to_nat max_delay)%nat ->
       nth (Z.to_nat (max_delay - 1) + j) out 0%R
       = linear_xcorr (center x0) (center x1) (Z.of_nat j)).
Proof.
  intros H0 H1 HN Hrep Hd.
  pose proof (ncorr_bounds N (Some max_delay) HN Hrep) as Hb.
  cbv zeta in Hb.
  rewrite gcc_is_time_domain_correlation; [|reflexivity|].
  2: { rewrite H0. lia. }
  cbv zeta. rewrite H0.
  replace (Z.min (2 * Z.of_nat N - 1) max_delay) with max_delay in * by lia.
  set (nfft := 2 ^ next_power_of_two (2 * Z.of_nat N - 1)) in *.
  set (n := Z.to_nat nfft).
  set (r := map _ (seq 0 n)).
  assert (Hr : Z.of_nat (length r) = nfft).
  { subst r. rewrite length_map, length_seq. subst n. lia. }
  destruct (shift_row_entries r nfft max_delay Hr ltac:(lia))
    as (out & Hout & Hlen & Hneg & Hpos & _).
  exists out. rewrite Hout. cbn [bind].
  split; [reflexivity|]. split; [exact Hlen|].
  assert (Hc0 : length (center x0) = N) by now rewrite center_length.
  assert (Hc1 : length (center x1) = N) by now rewrite center_length.
  split.
  - intros i Hi. rewrite Hneg by assumption. subst r.
    rewrite map_seq_nth by lia.
    replace (Z.to_nat (nfft - max_delay) + i)%nat
      with (n - (Z.to_nat max_delay - i))%nat by lia.
    rewrite circular_negative_lag by lia.
    f_equal. lia.
  - intros j Hj. rewrite Hpos by assumption. subst r.
    rewrite map_seq_nth by lia.
    apply circular_nonnegative_lag; lia.
Qed.

Lemma gcc_output_lags_witness :
  exists out,
    TensorGCC.gcc (Vec [1; -1; 0; 0]%R) (Vec [0; 1; -1; 0]%R) (Some 2)
      None None = Ok (Vec out) /\
    length out = 3%nat /\
    nth 0 out 0%R
    = linear_xcorr (center [1; -1; 0; 0]%R) (center [0; 1; -1; 0]%R) (-2) /\
    nth 1 out 0%R
    = linear_xcorr (center [1; -1; 0; 0]%R) (center [0; 1; -1; 0]%R) 0 /\
    nth 2 out 0%R
    = linear_xcorr (center [1; -1; 0; 0]%R) (center [0; 1; -1; 0]%R) 1.
Proof.
  destruct (gcc_output_lags [1; -1; 0; 0]%R [0; 1; -1; 0]%R 4 2
              eq_refl eq_refl ltac:(lia) eq_refl ltac:(lia))
    as (out & Hout & Hlen & Hneg & Hpos).
  exists out. split; [exact Hout|]. split; [exact Hlen|].
  split; [exact (Hneg 0%nat ltac:(simpl; lia))|].
  split; [exact (Hpos 0%nat ltac:(simpl; lia))
         | exact (Hpos 1%nat ltac:(simpl; lia))].
Defined.

(** ** Autocorrelation *)

Section Autocorrelation.
Local Open Scope R_scope.

Lemma sumR_le (n : nat) (f g : nat -> R) :
  (forall k, (k < n)%nat -> f k <= g k) -> sumR n f <= sumR n g.
Proof.
  induction n as [|n IH]; intros H; simpl; [lra|].
  specialize (IH (fun k Hk => H k (Nat.lt_lt_succ_r _ _ Hk))).
  specialize (H n (Nat.lt_succ_diag_r n)). lra.
Qed.

Lemma sumR_shift1 (n : nat) (g : nat -> R) :
  sumR n (fun b => g (S b)) = sumR n g - g 0%nat + g n.
Proof.
  induction n as [|n IH]; simpl; [ring|]. rewrite IH. ring.
Qed.

(** A sum over one period does not depend on where the period starts. *)
Lemma sumR_rotate (n j : nat) (f : nat -> R) :
  (1 <= n)%nat ->
  sumR n (fun b => f ((b + j) mod n)%nat) = sumR n f.
Proof.
  intros Hn. induction j as [|j IH].
  - apply sumR_ext. intros b Hb.
    now rewrite Nat.add_0_r, Nat.mod_small.
  - rewrite <- IH.
    rewrite (sumR_ext n _ (fun b => f ((S b + j) mod n)%nat))
      by (intros b _; f_equal; f_equal; lia).
    rewrite (sumR_shift1 n (fun b => f ((b + j) mod n)%nat)).
    replace ((n + j) mod n)%nat with ((0 + j) mod n)%nat; [ring|].
    replace (n + j)%nat with (j + 1 * n)%nat by lia.
    now rewrite Nat.Div0.mod_add.
Qed.

(** No entry of a circular autocorrelation exceeds entry 0. *)
Lemma circular_autocorrelation_peak (n j : nat) (u : list R) :
  (1 <= n)%nat ->
  circular_xcorr n u u j <= circular_xcorr n u u 0.
Proof.
  intros Hn. unfold circular_xcorr.
  set (f := fun b => nth b u 0 * nth b u 0).
  assert (H0 : sumR n (fun b => nth b u 0 * nth ((b + 0) mod n) u 0)
               = sumR n f).
  { apply sumR_ext. intros b Hb.
    now rewrite Nat.add_0_r, Nat.mod_small. }
  rewrite H0.
  pose proof (sumR_rotate n j f Hn) as Hrot.
  assert (Hle : sumR n (fun b => nth b u 0 * nth ((b + j) mod n) u 0)
                <= sumR n (fun b => / 2 * f b
                                    + / 2 * f ((b + j) mod n)%nat)).
  { apply sumR_le. intros b _. unfold f.
    set (p := nth b u 0). set (q := nth ((b + j) mod n) u 0).
    pose proof (Rle_0_sqr (p - q)) as Hsq. unfold Rsqr in Hsq. lra. }
  rewrite sumR_plus, !sumR_scal, Hrot in Hle. lra.
Qed.

Lemma circular_autocorrelation_nonneg (n : nat) (u : list R) :
  (1 <= n)%nat -> 0 <= circular_xcorr n u u 0.
Proof.
  intros Hn. unfold circular_xcorr.
  apply Rle_trans with (sumR n (fun _ => 0)).
  { rewrite sumR_zero. apply Rle_refl. }
  apply sumR_le. intros b Hb.
  rewrite Nat.add_0_r, Nat.mod_small by assumption.
  pose proof (Rle_0_sqr (nth b u 0)) as H. unfold Rsqr in H. exact H.
Qed.

(** X10.  For a rank-1 signal [x] of [N >= 2] samples correlated with
    itself, without weighting or scaling and with [max_delay >= 1] when
    given, the output attains its maximum at the zero-lag index
    [ncorr - 1], where it equals the energy of the DC-removed signal
    (the sum of its squares). *)
Theorem gcc_autocorrelation_peak (x : list R) (N : nat)
  (max_delay : option Z) :
  length x = N -> (2 <= N)%nat -> (2 * Z.of_nat N - 1 < 2 ^ 53)%Z ->
  let m := (2 * Z.of_nat N - 1)%Z in
  let ncorr := match max_delay with
               | None => m
               | Some max_delay => Z.min m max_delay
               end in
  (1 <= ncorr)%Z ->
  exists out,
    TensorGCC.gcc (Vec x) (Vec x) max_delay None None = Ok (Vec out) /\
    length out = Z.to_nat (2 * ncorr - 1) /\
    nth (Z.to_nat (ncorr - 1)) out 0
    = Rsum (map (fun v => v * v) (center x)) /\
    forall i, nth i out 0 <= nth (Z.to_nat (ncorr - 1)) out 0.
Proof.
  intros HlenN HN Hrep m ncorr Hncorr.
  pose proof (ncorr_bounds N max_delay HN Hrep) as Hb.
  cbv zeta in Hb. fold m in Hb. fold ncorr in Hb.
  rewrite gcc_is_time_domain_correlation; [|reflexivity|].
  2: { rewrite HlenN. fold m. lia. }
  cbv zeta. rewrite HlenN. fold m. fold ncorr.
  set (nfft := (2 ^ next_power_of_two m)%Z) in *.
  set (n := Z.to_nat nfft).
  set (u := fit 0 n (center x)).
  set (r := map (circular_xcorr n u u) (seq 0 n)).
  assert (Hn : (1 <= n)%nat) by (subst n; lia).
  assert (Hr : Z.of_nat (length r) = nfft).
  { subst r. rewrite length_map, length_seq. subst n. lia. }
  destruct (shift_row_entries r nfft ncorr Hr ltac:(lia))
    as (out & Hout & Hlen & Hneg & Hpos & H0).
  exists out. rewrite Hout. cbn [bind].
  split; [reflexivity|]. split; [exact Hlen|].
  assert (Hr0 : nth 0 r 0 = circular_xcorr n u u 0).
  { subst r. now rewrite map_seq_nth by lia. }
  assert (Hrk : forall k, nth k r 0 <= circular_xcorr n u u 0).
  { intros k. destruct (Nat.lt_ge_cases k n) as [Hk|Hk].
    - subst r. rewrite map_seq_nth by lia.
      now apply circular_autocorrelation_peak.
    - rewrite nth_overflow by (subst r; rewrite length_map, length_seq; lia).
      now apply circular_autocorrelation_nonneg. }
  split.
  - rewrite H0, Hr0. unfold circular_xcorr.
    rewrite (sumR_truncate N n).
    + assert (Hsum : forall l : list R,
                 sumR (length l) (fun b => nth b l 0 * nth b l 0)
                 = Rsum (map (fun v => v * v) l)).
      { intros l. induction l as [|a l IH] using rev_ind; [reflexivity|].
        rewrite length_app, Nat.add_1_r. cbn [sumR].
        rewrite (sumR_ext (length l) _ (fun b => nth b l 0 * nth b l 0)).
        - rewrite IH, app_nth2, Nat.sub_diag by lia. cbn [nth].
          rewrite map_app. cbn [map].
          clear IH. induction l as [|c l IHl]; simpl; [ring|].
          rewrite <- IHl. ring.
        - intros b Hlt. now rewrite !app_nth1 by assumption. }
      rewrite <- Hsum, center_length, HlenN.
      apply sumR_ext. intros b Hlt. subst u.
      rewrite Nat.add_0_r, Nat.mod_small by lia.
      now rewrite !fit_nth by (rewrite center_length; lia).
    + lia.
    + intros b Hbn. subst u. rewrite fit_nth by (rewrite center_length; lia).
      rewrite (nth_overflow (center x)) by (rewrite center_length; lia).
      ring.
  - intros i. rewrite H0, Hr0.
    destruct (Nat.lt_ge_cases i (Z.to_nat (ncorr - 1))) as [Hi|Hi].
    + rewrite Hneg by assumption. apply Hrk.
    + destruct (Nat.lt_ge_cases i (Z.to_nat (2 * ncorr - 1))) as [Hi2|Hi2].
      * replace i with (Z.to_nat (ncorr - 1) + (i - Z.to_nat (ncorr - 1)))%nat
          by lia.
        rewrite Hpos by lia. apply Hrk.
      * rewrite nth_overflow by lia.
        specialize (Hrk n).
        rewrite nth_overflow in Hrk
          by (subst r; rewrite length_map, length_seq; lia).
        exact Hrk.
Qed.

Lemma gcc_autocorrelation_peak_witness :
  exists out,
    TensorGCC.gcc (Vec [3; 1; 2]) (Vec [3; 1; 2]) (Some 2%Z) None None
    = Ok (Vec out) /\
    length out = 3%nat /\
    nth 1 out 0 = Rsum (map (fun v => v * v) (center [3; 1; 2])) /\
    forall i, nth i out 0 <= nth 1 out 0.
Proof.
  apply (gcc_autocorrelation_peak [3; 1; 2] 3 (Some 2%Z) eq_refl);
    [lia | reflexivity | simpl; lia].
Defined.

End Autocorrelation.

(** ** Phase transform of an autocorrelation *)

Section PhatAutocorrelation.
Local Open Scope R_scope.

Lemma zip_with_map_self {A B C} (f : A -> B -> C) (g : A -> B)
  (l : list A) :
  zip_with f l (map g l) = map (fun a => f a (g a)) l.
Proof. induction l as [|a l IH]; simpl; [|rewrite IH]; reflexivity. Qed.

(** The bin [z conj(z)] of an auto-spectrum is a non-negative real: its
    phase transform is 1. *)
Lemma unit_phasor_auto_spectrum (z : complex) :
  unit_phasor (Cx.mul z (Cx.conj z)) = (1, 0).
Proof.
  destruct z as [a b]. unfold unit_phasor.
  destruct (Req_dec_T (norm2 (Cx.mul (a, b) (Cx.conj (a, b)))) 0)
    as [Hz|Hnz]; [reflexivity|].
  unfold norm2, Cx.mul, Cx.conj, Cx.re, Cx.im in *. cbn [fst snd] in *.
  set (e := a * a + b * b).
  assert (He : 0 <= e) by (subst e; nra).
  replace (a * a - b * - b) with e in * by (subst e; ring).
  replace (a * - b + b * a) with 0 in * by ring.
  replace (e * e + 0 * 0) with (e * e) in * by ring.
  assert (Hpos : 0 < e) by nra.
  rewrite sqrt_square by assumption.
  f_equal; field; lra.
Qed.

(** The inverse transform of a spectrum of ones is the unit impulse. *)
Lemma irfft_row_ones (n : nat) (X : list complex) :
  (1 <= n)%nat -> length X = (n / 2 + 1)%nat ->
  irfft_row n (map (fun _ => (1, 0)) X)
  = map (fun j => if Nat.eqb j 0 then 1 else 0) (seq 0 n).
Proof.
  intros Hn HX. unfold irfft_row.
  rewrite fit_exact by now rewrite length_map.
  apply map_ext_in. intros j Hj. apply in_seq in Hj.
  assert (HNr : INR n <> 0) by (apply not_0_INR; lia).
  assert (Hone : forall k, (k < length X)%nat ->
             nth k (map (fun _ : complex => (1, 0)) X) Cx.zero = (1, 0)).
  { clear. induction X as [|z X IH]; intros [|k] Hk; simpl in *;
      try lia; [reflexivity | apply IH; lia]. }
  rewrite re_sum.
  rewrite (sumR_ext n _
    (fun k => cos (INR k * (2 * PI * IZR (Z.of_nat j) / INR n)))).
  - rewrite cos_sum_roots by assumption.
    rewrite Z.mod_small by lia.
    destruct (Nat.eqb_spec j 0) as [->|Hne].
    + simpl. field. assumption.
    + destruct (Z.eqb_spec (Z.of_nat j) 0); [lia|]. field. assumption.
  - intros k Hk. unfold hermitian.
    assert (Hdiv : (n <= 2 * (n / 2) + 1)%nat).
    { pose proof (Nat.div_mod_eq n 2).
      pose proof (Nat.mod_upper_bound n 2). lia. }
    assert (Hph : phase n k j = INR k * (2 * PI * IZR (Z.of_nat j) / INR n)).
    { unfold phase. rewrite <- INR_IZR_INZ. field. assumption. }
    destruct (Nat.leb_spec k (n / 2)).
    + rewrite Hone by lia. rewrite <- Hph.
      unfold Cx.mul, Cx.cis, Cx.re, Cx.im. cbn [fst snd]. ring.
    + rewrite Hone by lia. rewrite <- Hph.
      unfold Cx.mul, Cx.conj, Cx.cis, Cx.re, Cx.im. cbn [fst snd]. ring.
Qed.

(** X11.  For a rank-1 signal [x] of [N >= 2] samples correlated with
    itself under ["PHAT"] weighting, without scaling and with
    [max_delay >= 1] when given, the output is the unit impulse: 1 at the
    zero-lag index [ncorr - 1] and 0 at every other index, whatever the
    samples of [x]. *)
Theorem gcc_phat_autocorrelation_is_impulse (x : list R) (N : nat)
  (max_delay : option Z) :
  length x = N -> (2 <= N)%nat -> (2 * Z.of_nat N - 1 < 2 ^ 53)%Z ->
  let m := (2 * Z.of_nat N - 1)%Z in
  let ncorr := match max_delay with
               | None => m
               | Some max_delay => Z.min m max_delay
               end in
  (1 <= ncorr)%Z ->
  exists out,
    TensorGCC.gcc (Vec x) (Vec x) max_delay PHAT None = Ok (Vec out) /\
    length out = Z.to_nat (2 * ncorr - 1) /\
    forall i, (i < length out)%nat ->
      nth i out 0 = if Nat.eqb i (Z.to_nat (ncorr - 1)) then 1 else 0.
Proof.
  intros HlenN HN Hrep m ncorr Hncorr.
  pose proof (ncorr_bounds N max_delay HN Hrep) as Hb.
  cbv zeta in Hb. fold m in Hb. fold ncorr in Hb.
  set (nfft := (2 ^ next_power_of_two m)%Z) in *.
  set (n := Z.to_nat nfft).
  assert (Hn : (1 <= n)%nat) by (subst n; lia).
  set (r := map (fun j => if Nat.eqb j 0 then 1 else 0) (seq 0 n)).
  assert (Hr : Z.of_nat (length r) = nfft).
  { subst r. rewrite length_map, length_seq. subst n. lia. }
  destruct (shift_row_entries r nfft ncorr Hr ltac:(lia))
    as (out & Hout & Hlen & Hneg & Hpos & _).
  exists out. split.
  - unfold TensorGCC.gcc.
    change (py_in PHAT [None; PHAT]) with true.
    change (py_in None [None; biased; unbiased]) with true.
    cbn [negb assert_rank_in rank existsb Nat.eqb orb last_dim].
    rewrite (remove_dc_ok (Vec x)) by exact I.
    cbn [bind remove_dc]. rewrite HlenN. fold m. fold ncorr. fold nfft.
    unfold TensorGCC._gcc. rewrite !signal_rfft_vec.
    cbn [bind tmap broadcast2].
    rewrite length_map, !rfft_row_length, broadcast_dim_same.
    cbn [bind]. unfold _filter. change (pystr_eqb PHAT PHAT) with true.
    cbv iota. cbn [tmap]. rewrite signal_irfft_vec. cbn [bind].
    unfold check_numerics. fold n.
    rewrite broadcast_row_same_length by now rewrite length_map.
    rewrite zip_with_map_self, map_map.
    rewrite (map_ext _ (fun _ => (1, 0)))
      by (intros z; rewrite exp_angle_unit;
          apply unit_phasor_auto_spectrum).
    rewrite irfft_row_ones by (try assumption; apply rfft_row_length).
    fold r. rewrite Hout. cbn [bind].
    unfold TensorGCC._scale. cbn [last_dim].
    reflexivity.
  - split; [exact Hlen|].
    intros i Hi.
    assert (Hrk : forall k, nth k r 0 = if Nat.eqb k 0 then 1 else 0).
    { intros k. destruct (Nat.lt_ge_cases k n) as [Hk|Hk].
      - subst r. now rewrite map_seq_nth.
      - rewrite nth_overflow
          by (subst r; rewrite length_map, length_seq; lia).
        destruct (Nat.eqb_spec k 0); [lia | reflexivity]. }
    destruct (Nat.lt_ge_cases i (Z.to_nat (ncorr - 1))) as [Hlt|Hge].
    + rewrite Hneg, Hrk by assumption.
      destruct (Nat.eqb_spec (Z.to_nat (nfft - ncorr) + i) 0); [lia|].
      destruct (Nat.eqb_spec i (Z.to_nat (ncorr - 1))); [lia|reflexivity].
    + replace i with (Z.to_nat (ncorr - 1) + (i - Z.to_nat (ncorr - 1)))%nat
        at 1 by lia.
      rewrite Hpos, Hrk by lia.
      destruct (Nat.eqb_spec (i - Z.to_nat (ncorr - 1)) 0);
        destruct (Nat.eqb_spec i (Z.to_nat (ncorr - 1)));
        try reflexivity; lia.
Qed.

Lemma gcc_phat_autocorrelation_is_impulse_witness :
  exists out,
    TensorGCC.gcc (Vec [3; 1; 2]) (Vec [3; 1; 2]) (Some 2%Z) PHAT None
    = Ok (Vec out) /\
    length out = 3%nat /\
    forall i, (i < length out)%nat ->
      nth i out 0 = if Nat.eqb i 1 then 1 else 0.
Proof.
  apply (gcc_phat_autocorrelation_is_impulse [3; 1; 2] 3 (Some 2%Z) eq_refl);
    [lia | reflexivity | simpl; lia].
Defined.

End PhatAutocorrelation.

(** ** Batches: every row pair goes through the pipeline on its own *)

Lemma map_zip_with {A B C D} (f : C -> D) (g : A -> B -> C) (u : list A)
  (v : list B) :
  map f (zip_with g u v) = zip_with (fun a b => f (g a b)) u v.
Proof.
  revert v. induction u as [|a u IH]; intros [|b v]; simpl;
    try reflexivity. now rewrite IH.
Qed.

Lemma zip_with_maps {A A' B B' C} (f : A' -> B' -> C) (g : A -> A')
  (h : B -> B') (u : list A) (v : list B) :
  zip_with f (map g u) (map h v) = zip_with (fun a b => f (g a) (h b)) u v.
Proof.
  revert v. induction u as [|a u IH]; intros [|b v]; simpl;
    try reflexivity. now rewrite IH.
Qed.

Lemma zip_with_flip {A B C} (f : A -> B -> C) (u : list A) (v : list B) :
  zip_with f u v = zip_with (fun b a => f a b) v u.
Proof.
  revert v. induction u as [|a u IH]; intros [|b v]; simpl;
    try reflexivity. now rewrite IH.
Qed.

Lemma zip_with_ext_Forall {A B C} (f g : A -> B -> C) (P : A -> Prop)
  (Q : B -> Prop) (u : list A) (v : list B) :
  (forall a b, P a -> Q b -> f a b = g a b) ->
  Forall P u -> Forall Q v -> zip_with f u v = zip_with g u v.
Proof.
  intros Hfg Hu. revert v.
  induction Hu as [|a u Ha Hu IH]; intros v Hv; [reflexivity|].
  destruct Hv as [|b v Hb Hv]; [reflexivity|]. simpl.
  now rewrite Hfg, IH.
Qed.

Lemma zip_with_same {A C} (f : A -> A -> C) (u : list A) :
  zip_with f u u = map (fun a => f a a) u.
Proof. induction u as [|a u IH]; simpl; [|rewrite IH]; reflexivity. Qed.

Lemma zip_with_nth_default {A B C} (f : A -> B -> C) (u : list A)
  (v : list B) (i : nat) (da : A) (db : B) (dc : C) :
  (i < length u)%nat -> (i < length v)%nat ->
  nth i (zip_with f u v) dc = f (nth i u da) (nth i v db).
Proof.
  revert v i. induction u as [|a u IH]; intros [|b v] [|i] Hu Hv;
    simpl in *; try lia; [reflexivity|].
  apply IH; lia.
Qed.

Lemma filter_vec (weighting : pystr) (R01 : list complex) :
  _filter (Vec R01) weighting = Vec (filter_row weighting R01).
Proof.
  unfold _filter, filter_row.
  destruct (pystr_eqb weighting PHAT); reflexivity.
Qed.

Lemma filter_mat (weighting : pystr) (c : nat) (rows : list (list complex)) :
  _filter (Mat c rows) weighting = Mat c (map (filter_row weighting) rows).
Proof.
  unfold _filter, filter_row.
  destruct (pystr_eqb weighting PHAT); [reflexivity|].
  now rewrite map_id.
Qed.

Lemma shift_cols (nfft ncorr : Z) :
  1 <= ncorr < nfft ->
  (slice_len (Z.to_nat nfft) (nfft - ncorr) (nfft - 1)
   + slice_len (Z.to_nat nfft) 0 ncorr)%nat
  = Z.to_nat (2 * ncorr - 1).
Proof.
  intros Hn. unfold slice_len, slice_bound. rewrite Z2Nat.id by lia.
  destruct (Z.ltb_spec (nfft - ncorr) 0); [lia|].
  destruct (Z.ltb_spec (nfft - 1) 0); [lia|].
  destruct (Z.ltb_spec ncorr 0); [lia|].
  change (0 <? 0) with false. cbv iota. lia.
Qed.

Lemma shift_row_length (nfft ncorr : Z) (r : list R) :
  1 <= ncorr < nfft -> length r = Z.to_nat nfft ->
  length (shift_row nfft ncorr r) = Z.to_nat (2 * ncorr - 1).
Proof.
  intros Hn Hr. unfold shift_row.
  rewrite length_app, !slice_length, Hr. now apply shift_cols.
Qed.

Lemma unscaled_row_length (nfft ncorr : Z) (weighting : pystr)
  (r0 r1 : list R) :
  1 <= ncorr < nfft ->
  length (unscaled_row nfft ncorr weighting r0 r1)
  = Z.to_nat (2 * ncorr - 1).
Proof.
  intros Hn. unfold unscaled_row.
  apply shift_row_length; [assumption | apply irfft_row_length].
Qed.

(** The stages between DC removal and scaling, on a pair of signals;
    [k] is what follows them. *)
Lemma stages_on_vec {B} (c0 c1 : list R) (nfft ncorr : Z)
  (weighting : pystr) (k : tensor R -> result B) :
  1 <= ncorr < nfft ->
  bind (signal_rfft (Vec c0) nfft) (fun X0 =>
  bind (signal_rfft (Vec c1) nfft) (fun X1 =>
  bind (broadcast2 Cx.mul X1 (tmap Cx.conj X0)) (fun R01 =>
  bind (signal_irfft (_filter R01 weighting) nfft) (fun r01 =>
  bind (_shift (check_numerics r01) nfft ncorr) k))))
  = k (Vec (shift_row nfft ncorr
              (irfft_row (Z.to_nat nfft)
                 (filter_row weighting
                    (broadcast_row Cx.mul (rfft_row (Z.to_nat nfft) c1)
                       (map Cx.conj (rfft_row (Z.to_nat nfft) c0))))))).
Proof.
  intros Hn. rewrite !signal_rfft_vec. cbn [bind tmap broadcast2].
  rewrite length_map, !rfft_row_length, broadcast_dim_same.
  cbn [bind]. rewrite filter_vec, signal_irfft_vec. cbn [bind].
  unfold check_numerics, _shift.
  destruct (Z.ltb_spec ncorr nfft); [|lia].
  reflexivity.
Qed.

(** The same stages on two batches of equal size, which is not 0: row by
    row. *)
Lemma stages_on_mat {B} (rows0 rows1 : list (list R)) (N n1 : nat)
  (nfft ncorr : Z) (weighting : pystr) (k : tensor R -> result B) :
  (1 <= length rows0)%nat ->
  length rows0 = length rows1 -> 1 <= ncorr < nfft ->
  bind (signal_rfft (Mat N rows0) nfft) (fun X0 =>
  bind (signal_rfft (Mat n1 rows1) nfft) (fun X1 =>
  bind (broadcast2 Cx.mul X1 (tmap Cx.conj X0)) (fun R01 =>
  bind (signal_irfft (_filter R01 weighting) nfft) (fun r01 =>
  bind (_shift (check_numerics r01) nfft ncorr) k))))
  = k (Mat (Z.to_nat (2 * ncorr - 1))
         (zip_with
            (fun r0 r1 =>
               shift_row nfft ncorr
                 (irfft_row (Z.to_nat nfft)
                    (filter_row weighting
                       (broadcast_row Cx.mul
                          (rfft_row (Z.to_nat nfft) r1)
                          (map Cx.conj (rfft_row (Z.to_nat nfft) r0))))))
            rows0 rows1)).
Proof.
  intros Hne Hlen Hn.
  rewrite (signal_rfft_nonempty (Mat N rows0))
    by (cbn [batch]; intros [= E]; lia).
  cbn [bind].
  rewrite (signal_rfft_nonempty (Mat n1 rows1))
    by (cbn [batch]; intros [= E]; lia).
  cbn [bind rfft tmap map_last broadcast2].
  rewrite broadcast_dim_same. cbn [bind].
  rewrite !length_map, Hlen, broadcast_dim_same. cbn [bind].
  unfold broadcast_rows. rewrite !length_map, Hlen, Nat.eqb_refl.
  rewrite filter_mat, signal_irfft_ok by reflexivity.
  cbn [bind irfft map_last].
  unfold check_numerics, _shift.
  destruct (Z.ltb_spec ncorr nfft); [|lia].
  cbn [negb slice_last concat_last].
  rewrite !length_map, Nat.eqb_refl.
  rewrite shift_cols by assumption. cbn [bind]. do 2 f_equal.
  rewrite zip_with_maps, zip_with_same, !map_map.
  rewrite zip_with_maps, map_zip_with.
  apply zip_with_flip.
Qed.

Lemma pystr_eqb_eq (a b : pystr) : pystr_eqb a b = true -> a = b.
Proof.
  destruct a as [s|], b as [t|]; simpl; try discriminate; auto.
  intros E. apply String.eqb_eq in E. now subst.
Qed.

Lemma scale_on_vec (x : tensor R) (g : list R) (scale : pystr) (N : nat) :
  last_dim x = Some N -> (1 <= length g)%nat ->
  TensorGCC._scale x (Vec g) scale = Ok (Vec (scale_row N scale g)).
Proof.
  intros Hx Hg. unfold scale_row.
  destruct (pystr_eqb scale biased) eqn:Eb.
  - unfold TensorGCC._scale. now rewrite Hx, Eb.
  - destruct (pystr_eqb scale unbiased) eqn:Eu.
    + apply pystr_eqb_eq in Eu. subst scale.
      rewrite (TensorGCCFacts.scale_unbiased_eq x (Vec g) None (length g) N);
        [reflexivity | | assumption | assumption].
      unfold has_shape; simpl; auto.
    + unfold TensorGCC._scale. now rewrite Hx, Eb, Eu.
Qed.

Lemma scale_on_mat (x : tensor R) (len : nat) (rows : list (list R))
  (scale : pystr) (N : nat) :
  last_dim x = Some N -> (1 <= len)%nat ->
  Forall (fun row => length row = len) rows ->
  TensorGCC._scale x (Mat len rows) scale
  = Ok (Mat len (map (scale_row N scale) rows)).
Proof.
  intros Hx Hlen Hrows. unfold scale_row.
  destruct (pystr_eqb scale biased) eqn:Eb.
  - unfold TensorGCC._scale. now rewrite Hx, Eb.
  - destruct (pystr_eqb scale unbiased) eqn:Eu.
    + apply pystr_eqb_eq in Eu. subst scale.
      rewrite (TensorGCCFacts.scale_unbiased_eq x (Mat len rows)
                 (Some (length rows)) len N);
        [ | unfold has_shape; simpl; auto | assumption | assumption].
      unfold divide_rows. cbn [map_last].
      rewrite spec_den_length by assumption. do 2 f_equal.
      apply map_ext_in. intros row Hin.
      rewrite Forall_forall in Hrows. now rewrite (Hrows row Hin).
    + unfold TensorGCC._scale. rewrite Hx, Eb, Eu.
      now rewrite map_id.
Qed.

Section Rows.
Variables (N : nat) (max_delay : option Z) (weighting scale : pystr).
Hypothesis HN : (2 <= N)%nat.
Hypothesis Hrep : 2 * Z.of_nat N - 1 < 2 ^ 53.
Hypothesis Hw : py_in weighting [None; PHAT] = true.
Hypothesis Hs : py_in scale [None; biased; unbiased] = true.

Let m := 2 * Z.of_nat N - 1.
Let ncorr := match max_delay with
             | None => m
             | Some max_delay => Z.min m max_delay
             end.
Let nfft := 2 ^ next_power_of_two m.

Hypothesis Hncorr : 1 <= ncorr.

Let Hbounds : 1 <= ncorr < nfft.
Proof.
  pose proof (ncorr_bounds N max_delay HN Hrep) as H. cbv zeta in H.
  subst ncorr nfft m. lia.
Qed.

(** A pair of single signals. *)
Lemma gcc_on_vec (r0 r1 : list R) :
  length r0 = N ->
  TensorGCC.gcc (Vec r0) (Vec r1) max_delay weighting scale
  = Ok (Vec (gcc_row nfft ncorr weighting scale r0 r1)).
Proof.
  intros Hr0. unfold TensorGCC.gcc. rewrite Hw, Hs.
  cbn [negb assert_rank_in rank existsb Nat.eqb orb last_dim].
  rewrite (remove_dc_ok (Vec r0)), (remove_dc_ok (Vec r1)) by exact I.
  cbn [bind remove_dc]. rewrite Hr0. fold m. fold ncorr. fold nfft.
  unfold TensorGCC._gcc.
  etransitivity; [exact (stages_on_vec _ _ _ _ _ _ Hbounds)|].
  rewrite (scale_on_vec _ _ scale N).
  - unfold gcc_row, unscaled_row. now rewrite Hr0.
  - cbn [last_dim]. now rewrite center_length, Hr0.
  - rewrite shift_row_length; [lia | exact Hbounds | apply irfft_row_length].
Qed.

(** Two batches of the same size. *)
Lemma gcc_on_mat (n1 : nat) (rows0 rows1 : list (list R)) :
  Forall (fun row => length row = N) rows0 ->
  (1 <= length rows0)%nat ->
  length rows0 = length rows1 ->
  TensorGCC.gcc (Mat N rows0) (Mat n1 rows1) max_delay weighting scale
  = Ok (Mat (Z.to_nat (2 * ncorr - 1))
          (zip_with (gcc_row nfft ncorr weighting scale) rows0 rows1)).
Proof.
  intros Hrows Hne Hlen. unfold TensorGCC.gcc. rewrite Hw, Hs.
  cbn [negb assert_rank_in rank existsb Nat.eqb orb last_dim].
  rewrite (remove_dc_ok (Mat N rows0)), (remove_dc_ok (Mat n1 rows1))
    by exact I.
  cbn [bind remove_dc]. fold m. fold ncorr. fold nfft.
  unfold TensorGCC._gcc.
  etransitivity.
  { apply stages_on_mat; rewrite ?length_map; auto using Hbounds. }
  rewrite (scale_on_mat _ _ _ scale N).
  - do 2 f_equal. rewrite zip_with_maps, map_zip_with.
    apply (zip_with_ext_Forall _ _ (fun row => length row = N)
             (fun _ => True)); [| assumption | now apply Forall_forall].
    intros r0 r1 Hr0 _. unfold gcc_row, unscaled_row. now rewrite Hr0.
  - reflexivity.
  - lia.
  - rewrite zip_with_maps.
    apply (zip_with_Forall _ _ (fun _ => True) (fun _ => True));
      [| now apply Forall_forall | now apply Forall_forall].
    intros r0 r1 _ _.
    apply shift_row_length; [exact Hbounds | apply irfft_row_length].
Qed.

End Rows.

(** X12.  Batch elements do not influence each other: for two batches of
    the same size, which is not 0, with [N >= 2] samples per row of [x0],
    [n1 >= 1] samples per row of [x1], supported options and
    [ncorr >= 1], row [i] of the output of [gcc] is the output of [gcc]
    on row [i] of [x0] and row [i] of [x1] taken as single signals. *)
Theorem gcc_batch_rows_independent (N n1 : nat)
  (rows0 rows1 : list (list R)) (max_delay : option Z)
  (weighting scale : pystr) :
  Forall (fun row => length row = N) rows0 ->
  Forall (fun row => length row = n1) rows1 ->
  (1 <= length rows0)%nat ->
  length rows0 = length rows1 ->
  (2 <= N)%nat -> (1 <= n1)%nat -> 2 * Z.of_nat N - 1 < 2 ^ 53 ->
  weighting = None \/ weighting = PHAT ->
  scale = None \/ scale = biased \/ scale = unbiased ->
  let m := 2 * Z.of_nat N - 1 in
  let ncorr := match max_delay with
               | None => m
               | Some max_delay => Z.min m max_delay
               end in
  1 <= ncorr ->
  exists outs,
    TensorGCC.gcc (Mat N rows0) (Mat n1 rows1) max_delay weighting scale
    = Ok (Mat (Z.to_nat (2 * ncorr - 1)) outs) /\
    length outs = length rows0 /\
    forall i, (i < length rows0)%nat ->
      TensorGCC.gcc (Vec (nth i rows0 [])) (Vec (nth i rows1 []))
        max_delay weighting scale
      = Ok (Vec (nth i outs [])).
Proof.
  intros Hrows _ Hne Hlen HN _ Hrep Hw Hs m ncorr Hncorr.
  assert (Hw' : py_in weighting [None; PHAT] = true)
    by (destruct Hw as [-> | ->]; reflexivity).
  assert (Hs' : py_in scale [None; biased; unbiased] = true)
    by (destruct Hs as [-> | [-> | ->]]; reflexivity).
  eexists. split; [|split].
  - exact (gcc_on_mat N max_delay weighting scale HN Hrep Hw' Hs' Hncorr
             n1 rows0 rows1 Hrows Hne Hlen).
  - rewrite zip_with_length. lia.
  - intros i Hi.
    rewrite (gcc_on_vec N max_delay weighting scale HN Hrep Hw' Hs' Hncorr).
    + do 2 f_equal. symmetry.
      apply zip_with_nth_default; lia.
    + rewrite Forall_forall in Hrows. apply Hrows, nth_In, Hi.
Qed.

Lemma gcc_batch_rows_independent_witness :
  exists outs,
    TensorGCC.gcc (Mat 2 [[1; 2]; [3; 5]]%R) (Mat 2 [[0; 1]; [4; 2]]%R)
      (Some 1) PHAT biased = Ok (Mat 1 outs) /\
    length outs = 2%nat /\
    forall i, (i < 2)%nat ->
      TensorGCC.gcc (Vec (nth i [[1; 2]; [3; 5]]%R []))
        (Vec (nth i [[0; 1]; [4; 2]]%R [])) (Some 1) PHAT biased
      = Ok (Vec (nth i outs [])).
Proof.
  apply (gcc_batch_rows_independent 2 2 [[1; 2]; [3; 5]]%R
           [[0; 1]; [4; 2]]%R (Some 1) PHAT biased);
    try reflexivity; try (simpl; lia); auto.
Defined.

(** ** The older entry point *)

Lemma legacy_scale_odd (m len : nat) (xrows rows : list (list R))
  (scale : pystr) :
  Nat.odd len = true ->
  Legacy._scale (Mat m xrows) (Mat len rows) scale
  = TensorGCC._scale (Mat m xrows) (Mat len rows) scale.
Proof.
  intros Hodd. unfold Legacy._scale, TensorGCC._scale. cbn [last_dim].
  destruct (pystr_eqb scale biased); [reflexivity|].
  destruct (pystr_eqb scale unbiased); [|reflexivity].
  now rewrite scale_unbiased_odd_no_padding.
Qed.

(** X13.  On a rank-3 [waveforms] tensor with at least two channels,
    [N >= 2] samples, supported options and [ncorr >= 1], [gcc] of
    [src/gcc/gcc.py] returns what [gcc] of [src/tensorgcc/gcc.py] returns
    on channel 0 as [x0] and channel 1 as [x1]. *)
Theorem legacy_gcc_agrees_on_batches (c N : nat)
  (batches : list (list (list R))) (max_delay : option Z)
  (weighting scale : pystr) :
  (2 <= c)%nat -> (2 <= N)%nat -> 2 * Z.of_nat N - 1 < 2 ^ 53 ->
  weighting = None \/ weighting = PHAT ->
  scale = None \/ scale = biased \/ scale = unbiased ->
  let m := 2 * Z.of_nat N - 1 in
  let ncorr := match max_delay with
               | None => m
               | Some max_delay => Z.min m max_delay
               end in
  1 <= ncorr ->
  LegacyPipeline.gcc (LegacyPipeline.W3 c N batches) max_delay weighting
    scale
  = LegacyPipeline.of_result
      (TensorGCC.gcc (LegacyPipeline.channel 0 N batches)
         (LegacyPipeline.channel 1 N batches) max_delay weighting scale).
Proof.
  intros Hc HN Hrep Hw Hs m ncorr Hncorr.
  assert (Hw' : py_in weighting [None; PHAT] = true)
    by (destruct Hw as [-> | ->]; reflexivity).
  assert (Hs' : py_in scale [None; biased; unbiased] = true)
    by (destruct Hs as [-> | [-> | ->]]; reflexivity).
  pose proof (ncorr_bounds N max_delay HN Hrep) as Hb. cbv zeta in Hb.
  fold m in Hb. fold ncorr in Hb.
  unfold LegacyPipeline.gcc. cbn [LegacyPipeline.ndims].
  change (3 <? 2)%nat with false. cbv iota.
  destruct (Nat.ltb_spec c 2); [lia|].
  f_equal. unfold TensorGCC.gcc. rewrite Hw', Hs'.
  unfold LegacyPipeline.channel.
  cbn [negb assert_rank_in rank existsb Nat.eqb orb last_dim].
  fold m. fold ncorr.
  set (nfft := 2 ^ next_power_of_two m) in *.
  rewrite !(remove_dc_ok (Mat N _)) by exact I.
  cbn [bind remove_dc].
  unfold LegacyPipeline._gcc, TensorGCC._gcc.
  destruct batches as [|chans batches].
  - (* a batch of no rows: the first transform refuses it *)
    cbn [map].
    rewrite signal_rfft_empty_batch by (subst m; lia).
    reflexivity.
  - etransitivity.
    { apply stages_on_mat; rewrite ?length_map; cbn [length]; auto; lia. }
    symmetry. etransitivity.
    { apply stages_on_mat; rewrite ?length_map; cbn [length]; auto; lia. }
    symmetry. apply legacy_scale_odd.
    replace (Z.to_nat (2 * ncorr - 1))
      with (2 * Z.to_nat (ncorr - 1) + 1)%nat by lia.
    rewrite Nat.odd_add, Nat.odd_mul. reflexivity.
Qed.

Lemma legacy_gcc_agrees_on_batches_witness :
  LegacyPipeline.gcc
    (LegacyPipeline.W3 2 2 [[[1; 2]; [0; 1]]; [[3; 5]; [4; 2]]]%R)
    (Some 1) PHAT unbiased
  = LegacyPipeline.of_result
      (TensorGCC.gcc
         (LegacyPipeline.channel 0 2 [[[1; 2]; [0; 1]]; [[3; 5]; [4; 2]]]%R)
         (LegacyPipeline.channel 1 2 [[[1; 2]; [0; 1]]; [[3; 5]; [4; 2]]]%R)
         (Some 1) PHAT unbiased).
Proof.
  apply (legacy_gcc_agrees_on_batches 2 2
           [[[1; 2]; [0; 1]]; [[3; 5]; [4; 2]]]%R (Some 1) PHAT unbiased);
    try reflexivity; try lia; auto.
Defined.

(** X14.  [gcc] of [src/gcc/gcc.py] never rejects an option: a
    [weighting] other than ["PHAT"] gives the result of [weighting=None],
    and a [scale] other than ["biased"] and ["unbiased"] gives the result
    of [scale=None], whatever the input. *)
Theorem legacy_gcc_ignores_unknown_options (w : LegacyPipeline.waveforms)
  (max_delay : option Z) (weighting scale : pystr) :
  (weighting <> PHAT ->
   LegacyPipeline.gcc w max_delay weighting scale
   = LegacyPipeline.gcc w max_delay None scale)
  /\
  (scale <> biased -> scale <> unbiased ->
   LegacyPipeline.gcc w max_delay weighting scale
   = LegacyPipeline.gcc w max_delay weighting None).
Proof.
  assert (Hne : forall a b : pystr, a <> b -> pystr_eqb a b = false).
  { intros a b H. destruct (pystr_eqb a b) eqn:E; [|reflexivity].
    now apply pystr_eqb_eq in E. }
  split.
  - intros Hw. unfold LegacyPipeline.gcc, LegacyPipeline._gcc, _filter.
    rewrite (Hne _ _ Hw). reflexivity.
  - intros Hb Hu.
    unfold LegacyPipeline.gcc, LegacyPipeline._gcc.
    destruct (LegacyPipeline.ndims w <? 2)%nat; [reflexivity|].
    destruct w as [n chans | c n batches | k]; try reflexivity.
    destruct (c <? 2)%nat; [reflexivity|]. f_equal.
    destruct (broadcast2 Rminus _ _) as [x0|e]; [|reflexivity].
    destruct (broadcast2 Rminus _ _) as [x1|e]; [|reflexivity].
    cbn [bind].
    destruct (signal_rfft x0 _) as [X0|e]; [|reflexivity]. cbn [bind].
    destruct (signal_rfft x1 _) as [X1|e]; [|reflexivity]. cbn [bind].
    destruct (broadcast2 Cx.mul _ _) as [R01|e]; [|reflexivity].
    cbn [bind].
    destruct (signal_irfft _ _) as [r|e]; [|reflexivity]. cbn [bind].
    destruct (_shift _ _ _) as [r01|e]; [|reflexivity].
    cbn [bind]. unfold Legacy._scale.
    rewrite (Hne _ _ Hb), (Hne _ _ Hu). reflexivity.
Qed.

Lemma legacy_gcc_ignores_unknown_options_witness :
  LegacyPipeline.gcc (LegacyPipeline.W3 2 2 [[[1; 2]; [0; 1]]]%R) None
    (Some "bogus"%string) (Some "none"%string)
  = LegacyPipeline.gcc (LegacyPipeline.W3 2 2 [[[1; 2]; [0; 1]]]%R) None
      None None.
Proof.
  destruct (legacy_gcc_ignores_unknown_options
              (LegacyPipeline.W3 2 2 [[[1; 2]; [0; 1]]]%R) None
              (Some "bogus"%string) (Some "none"%string)) as [Hw _].
  destruct (legacy_gcc_ignores_unknown_options
              (LegacyPipeline.W3 2 2 [[[1; 2]; [0; 1]]]%R) None
              None (Some "none"%string)) as [_ Hs].
  rewrite Hw by discriminate. apply Hs; discriminate.
Defined.

(** ** [max_delay = 0] *)

Lemma shift_vec_zero (r : list R) (N : Z) :
  1 <= N -> _shift (Vec r) N 0 = Ok (Vec []).
Proof.
  intros HN. unfold _shift. destruct (Z.ltb_spec 0 N); [|lia].
  cbn [negb slice_last concat_last]. do 2 f_equal.
  unfold slice, slice_bound.
  change (0 <? 0) with false. cbv iota.
  rewrite Z.sub_0_r.
  destruct (Z.ltb_spec N 0); [lia|].
  destruct (Z.ltb_spec (N - 1) 0); [lia|].
  replace (Z.to_nat (Z.min (N - 1) (Z.of_nat (length r))
                     - Z.min N (Z.of_nat (length r)))) with 0%nat by lia.
  replace (Z.to_nat (Z.min 0 (Z.of_nat (length r))
                     - Z.min 0 (Z.of_nat (length r)))) with 0%nat by lia.
  reflexivity.
Qed.

(** X15.  [max_delay = 0] is not rejected.  For rank-1 inputs with
    [N >= 1] samples in [x0] and a supported weighting, [gcc] then returns
    an empty sequence without scaling and with ["biased"] scaling, and
    fails with the error of [np.pad] (a negative pad width) with
    ["unbiased"] scaling. *)
Theorem gcc_zero_max_delay (x0 x1 : list R) (weighting : pystr) :
  (1 <= length x0)%nat -> 2 * Z.of_nat (length x0) - 1 < 2 ^ 53 ->
  weighting = None \/ weighting = PHAT ->
  TensorGCC.gcc (Vec x0) (Vec x1) (Some 0) weighting None = Ok (Vec [])
  /\ TensorGCC.gcc (Vec x0) (Vec x1) (Some 0) weighting biased
     = Ok (Vec [])
  /\ TensorGCC.gcc (Vec x0) (Vec x1) (Some 0) weighting unbiased
     = Raise ValueError_pad.
Proof.
  intros HN Hrep Hw.
  assert (Hw' : py_in weighting [None; PHAT] = true)
    by (destruct Hw as [-> | ->]; reflexivity).
  set (m := 2 * Z.of_nat (length x0) - 1).
  destruct (next_power_of_two_spec m ltac:(subst m; lia)) as (Hres & _ & _).
  assert (Hnfft : 1 <= 2 ^ next_power_of_two m).
  { pose proof (Z.pow_pos_nonneg 2 (next_power_of_two m)). lia. }
  assert (Hgcc : forall scale,
             py_in scale [None; biased; unbiased] = true ->
             TensorGCC.gcc (Vec x0) (Vec x1) (Some 0) weighting scale
             = TensorGCC._scale (Vec (center x0)) (Vec []) scale).
  { intros scale Hs. unfold TensorGCC.gcc. rewrite Hw', Hs.
    cbn [negb assert_rank_in rank existsb Nat.eqb orb last_dim].
    rewrite (remove_dc_ok (Vec x0)), (remove_dc_ok (Vec x1)) by exact I.
    cbn [bind remove_dc]. fold m.
    replace (Z.min m 0) with 0 by (subst m; lia).
    unfold TensorGCC._gcc. rewrite !signal_rfft_vec.
    cbn [bind tmap broadcast2].
    rewrite length_map, !rfft_row_length, broadcast_dim_same.
    cbn [bind]. rewrite filter_vec, signal_irfft_vec. cbn [bind].
    unfold check_numerics. now rewrite shift_vec_zero by exact Hnfft. }
  rewrite !Hgcc by reflexivity.
  repeat split; reflexivity.
Qed.

Lemma gcc_zero_max_delay_witness :
  TensorGCC.gcc (Vec [1; 2; 3]%R) (Vec [3; 2; 1]%R) (Some 0) PHAT None
  = Ok (Vec [])
  /\ TensorGCC.gcc (Vec [1; 2; 3]%R) (Vec [3; 2; 1]%R) (Some 0) PHAT biased
     = Ok (Vec [])
  /\ TensorGCC.gcc (Vec [1; 2; 3]%R) (Vec [3; 2; 1]%R) (Some 0) PHAT
       unbiased = Raise ValueError_pad.
Proof.
  apply (gcc_zero_max_delay [1; 2; 3]%R [3; 2; 1]%R PHAT);
    [simpl; lia | reflexivity | right; reflexivity].
Defined.

(** ** A single signal against a batch *)

Lemma shift_mat_rows (nfft ncorr : Z) (rows : list (list R)) :
  1 <= ncorr < nfft ->
  _shift (Mat (Z.to_nat nfft) rows) nfft ncorr
  = Ok (Mat (Z.to_nat (2 * ncorr - 1)) (map (shift_row nfft ncorr) rows)).
Proof.
  intros Hn. unfold _shift. destruct (Z.ltb_spec ncorr nfft); [|lia].
  cbn [negb slice_last concat_last].
  rewrite !length_map, Nat.eqb_refl, shift_cols by assumption.
  do 2 f_equal. now rewrite zip_with_maps, zip_with_same.
Qed.

Section SingleAgainstBatch.
Variables (N : nat) (max_delay : option Z) (weighting scale : pystr).
Hypothesis HN : (2 <= N)%nat.
Hypothesis Hrep : 2 * Z.of_nat N - 1 < 2 ^ 53.
Hypothesis Hw : py_in weighting [None; PHAT] = true.
Hypothesis Hs : py_in scale [None; biased; unbiased] = true.

Let m := 2 * Z.of_nat N - 1.
Let ncorr := match max_delay with
             | None => m
             | Some max_delay => Z.min m max_delay
             end.
Let nfft := 2 ^ next_power_of_two m.

Hypothesis Hncorr : 1 <= ncorr.

Let Hbounds : 1 <= ncorr < nfft.
Proof.
  pose proof (ncorr_bounds N max_delay HN Hrep) as H. cbv zeta in H.
  subst ncorr nfft m. lia.
Qed.

(** One reference signal, a batch of replicas. *)
Lemma gcc_vec_against_mat (r0 : list R) (n1 : nat)
  (rows1 : list (list R)) :
  length r0 = N -> (1 <= length rows1)%nat ->
  TensorGCC.gcc (Vec r0) (Mat n1 rows1) max_delay weighting scale
  = Ok (Mat (Z.to_nat (2 * ncorr - 1))
          (map (gcc_row nfft ncorr weighting scale r0) rows1)).
Proof.
  intros Hr0 Hne. unfold TensorGCC.gcc. rewrite Hw, Hs.
  cbn [negb assert_rank_in rank existsb Nat.eqb orb last_dim].
  rewrite (remove_dc_ok (Vec r0)), (remove_dc_ok (Mat n1 rows1)) by exact I.
  cbn [bind remove_dc]. rewrite Hr0. fold m. fold ncorr. fold nfft.
  unfold TensorGCC._gcc. rewrite signal_rfft_vec. cbn [bind].
  rewrite signal_rfft_nonempty
    by (cbn [batch]; rewrite length_map; intros [= E]; lia).
  cbn [bind rfft tmap map_last broadcast2].
  rewrite length_map, rfft_row_length, broadcast_dim_same.
  cbn [bind]. rewrite filter_mat, signal_irfft_ok by reflexivity.
  cbn [bind irfft map_last].
  unfold check_numerics. rewrite shift_mat_rows by exact Hbounds.
  cbn [bind].
  rewrite (scale_on_mat _ _ _ scale N).
  - do 2 f_equal. rewrite !map_map. apply map_ext. intros r1.
    unfold gcc_row, unscaled_row. now rewrite Hr0.
  - cbn [last_dim]. now rewrite center_length, Hr0.
  - lia.
  - rewrite !map_map. apply Forall_map, Forall_forall. intros r1 _.
    apply shift_row_length; [exact Hbounds | apply irfft_row_length].
Qed.

(** A batch of reference signals, one replica. *)
Lemma gcc_mat_against_vec (rows0 : list (list R)) (r1 : list R) :
  Forall (fun row => length row = N) rows0 -> (1 <= length rows0)%nat ->
  TensorGCC.gcc (Mat N rows0) (Vec r1) max_delay weighting scale
  = Ok (Mat (Z.to_nat (2 * ncorr - 1))
          (map (fun r0 => gcc_row nfft ncorr weighting scale r0 r1) rows0)).
Proof.
  intros Hrows Hne. unfold TensorGCC.gcc. rewrite Hw, Hs.
  cbn [negb assert_rank_in rank existsb Nat.eqb orb last_dim].
  rewrite (remove_dc_ok (Mat N rows0)), (remove_dc_ok (Vec r1)) by exact I.
  cbn [bind remove_dc]. fold m. fold ncorr. fold nfft.
  unfold TensorGCC._gcc.
  rewrite signal_rfft_nonempty
    by (cbn [batch]; rewrite length_map; intros [= E]; lia).
  cbn [bind]. rewrite signal_rfft_vec.
  cbn [bind rfft tmap map_last broadcast2].
  rewrite rfft_row_length, broadcast_dim_same.
  cbn [bind]. rewrite filter_mat, signal_irfft_ok by reflexivity.
  cbn [bind irfft map_last].
  unfold check_numerics. rewrite shift_mat_rows by exact Hbounds.
  cbn [bind].
  rewrite (scale_on_mat _ _ _ scale N).
  - do 2 f_equal. rewrite !map_map. apply map_ext_in. intros r0 Hin.
    rewrite Forall_forall in Hrows.
    unfold gcc_row, unscaled_row. now rewrite (Hrows r0 Hin).
  - reflexivity.
  - lia.
  - rewrite !map_map. apply Forall_map, Forall_forall. intros r0 _.
    apply shift_row_length; [exact Hbounds | apply irfft_row_length].
Qed.

End SingleAgainstBatch.

Lemma nth_map_lt {A B} (f : A -> B) (l : list A) (i : nat) (d : B)
  (d' : A) :
  (i < length l)%nat -> nth i (map f l) d = f (nth i l d').
Proof.
  revert i. induction l as [|a l IH]; intros [|i] Hi; simpl in *;
    try lia; [reflexivity | apply IH; lia].
Qed.

(** X16.  A rank-1 input broadcasts against a rank-2 one.  With
    [N >= 2] samples per signal of [x0], at least one sample per signal
    of [x1], a batch that is not empty, supported options and
    [ncorr >= 1]: a single [x0] against a batch [x1] gives one output row
    per row of [x1], the output of [gcc] on [x0] and that row; a batch
    [x0] against a single [x1] gives one output row per row of [x0], the
    output of [gcc] on that row and [x1]. *)
Theorem gcc_single_against_batch (N n1 : nat) (r : list R)
  (rows : list (list R)) (max_delay : option Z) (weighting scale : pystr) :
  (2 <= N)%nat -> 2 * Z.of_nat N - 1 < 2 ^ 53 ->
  weighting = None \/ weighting = PHAT ->
  scale = None \/ scale = biased \/ scale = unbiased ->
  let m := 2 * Z.of_nat N - 1 in
  let ncorr := match max_delay with
               | None => m
               | Some max_delay => Z.min m max_delay
               end in
  1 <= ncorr ->
  (1 <= length rows)%nat ->
  (length r = N ->
   Forall (fun row => length row = n1) rows -> (1 <= n1)%nat ->
   exists outs,
     TensorGCC.gcc (Vec r) (Mat n1 rows) max_delay weighting scale
     = Ok (Mat (Z.to_nat (2 * ncorr - 1)) outs) /\
     length outs = length rows /\
     forall i, (i < length rows)%nat ->
       TensorGCC.gcc (Vec r) (Vec (nth i rows [])) max_delay weighting
         scale
       = Ok (Vec (nth i outs [])))
  /\
  (Forall (fun row => length row = N) rows -> (1 <= length r)%nat ->
   exists outs,
     TensorGCC.gcc (Mat N rows) (Vec r) max_delay weighting scale
     = Ok (Mat (Z.to_nat (2 * ncorr - 1)) outs) /\
     length outs = length rows /\
     forall i, (i < length rows)%nat ->
       TensorGCC.gcc (Vec (nth i rows [])) (Vec r) max_delay weighting
         scale
       = Ok (Vec (nth i outs []))).
Proof.
  intros HN Hrep Hw Hs m ncorr Hncorr Hne.
  assert (Hw' : py_in weighting [None; PHAT] = true)
    by (destruct Hw as [-> | ->]; reflexivity).
  assert (Hs' : py_in scale [None; biased; unbiased] = true)
    by (destruct Hs as [-> | [-> | ->]]; reflexivity).
  split.
  - intros Hr _ _. eexists. split; [|split].
    + exact (gcc_vec_against_mat N max_delay weighting scale HN Hrep Hw'
               Hs' Hncorr r n1 rows Hr Hne).
    + apply length_map.
    + intros i Hi.
      rewrite (gcc_on_vec N max_delay weighting scale HN Hrep Hw' Hs'
                 Hncorr) by exact Hr.
      do 2 f_equal. symmetry. now apply nth_map_lt.
  - intros Hrows _. eexists. split; [|split].
    + exact (gcc_mat_against_vec N max_delay weighting scale HN Hrep Hw'
               Hs' Hncorr rows r Hrows Hne).
    + apply length_map.
    + intros i Hi.
      rewrite (gcc_on_vec N max_delay weighting scale HN Hrep Hw' Hs'
                 Hncorr).
      * do 2 f_equal. symmetry.
        now apply (nth_map_lt (fun r0 => gcc_row _ _ _ _ r0 r)).
      * rewrite Forall_forall in Hrows. apply Hrows, nth_In, Hi.
Qed.

Lemma gcc_single_against_batch_witness :
  (exists outs,
     TensorGCC.gcc (Vec [1; 2]%R) (Mat 2 [[0; 1]; [4; 2]]%R) (Some 2) None
       unbiased = Ok (Mat 3 outs) /\
     length outs = 2%nat /\
     forall i, (i < 2)%nat ->
       TensorGCC.gcc (Vec [1; 2]%R) (Vec (nth i [[0; 1]; [4; 2]]%R []))
         (Some 2) None unbiased
       = Ok (Vec (nth i outs [])))
  /\
  (exists outs,
     TensorGCC.gcc (Mat 2 [[0; 1]; [4; 2]]%R) (Vec [1; 2]%R) (Some 2) None
       unbiased = Ok (Mat 3 outs) /\
     length outs = 2%nat /\
     forall i, (i < 2)%nat ->
       TensorGCC.gcc (Vec (nth i [[0; 1]; [4; 2]]%R [])) (Vec [1; 2]%R)
         (Some 2) None unbiased
       = Ok (Vec (nth i outs []))).
Proof.
  destruct (gcc_single_against_batch 2 2 [1; 2]%R [[0; 1]; [4; 2]]%R
              (Some 2) None unbiased) as [H1 H2];
    [lia | reflexivity | left; reflexivity
    | right; right; reflexivity | simpl; lia | simpl; lia |].
  split; [apply H1; [reflexivity | repeat constructor | lia]
         | apply H2; [repeat constructor | simpl; lia]].
Defined.
